(** * molinar-game-sdk: deterministic RNG and multiplayer session core

    A shallow embedding of [src/math.js] (the seeded generator
    [mulberry32], [hashPosition], [createPositionRandom]) and of the
    multiplayer manager built by [createMultiplayerManager] (presence
    handlers, host arbitration against the [worlds] table, throttled
    position broadcast, [leave]).

    JavaScript numbers that the code treats as 32-bit integers are
    modelled as [Z] with the wrap-around written out. *)

From Stdlib Require Import ZArith QArith Qround Lia.
From stdpp Require Import base gmap sets list strings.

Local Open Scope Z_scope.

(** ** JavaScript 32-bit integer operators *)

Module JS.

Definition two32 : Z := 4294967296.
Definition two31 : Z := 2147483648.

(** [ToUint32]: the value modulo 2^32. *)
Definition ToUint32 (n : Z) : Z := n mod two32.

(** [ToInt32]: the value modulo 2^32, re-centred on [-2^31, 2^31). *)
Definition ToInt32 (n : Z) : Z :=
  let u := n mod two32 in
  if u <? two31 then u else u - two32.

(** [a ^ b] *)
Definition xor (a b : Z) : Z := Z.lxor (ToInt32 a) (ToInt32 b).

(** [a | b] *)
Definition bor (a b : Z) : Z := Z.lor (ToInt32 a) (ToInt32 b).

(** [a >>> k]: the shift count is taken modulo 32. *)
Definition ushr (a k : Z) : Z := Z.shiftr (ToUint32 a) (k mod 32).

(** [Math.imul(a, b)] *)
Definition imul (a b : Z) : Z := ToInt32 (ToInt32 a * ToInt32 b).

(** Nearest double to an integer, ties to even: exact up to 2^53,
    then rounded to a multiple of the unit in the last place. *)
Definition round_double_pos (n : Z) : Z :=
  if n <? 2 ^ 53 then n
  else
    let e := Z.log2 n - 52 in
    let q := n / 2 ^ e in
    let r := n mod 2 ^ e in
    let half := 2 ^ (e - 1) in
    let q' := if r <? half then q
              else if half <? r then q + 1
              else if Z.even q then q else q + 1 in
    q' * 2 ^ e.

Definition round_double (n : Z) : Z :=
  Z.sgn n * round_double_pos (Z.abs n).

(** [a + b] on numbers holding integers. *)
Definition add (a b : Z) : Z := round_double (a + b).

(** [u / 4294967296] for an unsigned 32-bit [u]: the quotient is a
    dyadic rational with at most 32 significant bits, so the double
    division is exact. *)
Definition div_two32 (u : Z) : Q := Qmake u 4294967296.

End JS.

(** ** The seeded generator of [math.js] *)

(** One call of the closure returned by [mulberry32]: the captured
    variable [seed] is the state. Returns the new value of [seed] and
    the number produced. *)
Definition mulberry32_step (seed : Z) : Z * Q :=
  let seed := JS.add seed 1831565813 (* 0x6d2b79f5 *) in
  let t := seed in
  let t := JS.imul (JS.xor t (JS.ushr t 15)) (JS.bor t 1) in
  let t := JS.xor t (JS.add t (JS.imul (JS.xor t (JS.ushr t 7)) (JS.bor t 61))) in
  (seed, JS.div_two32 (JS.ushr (JS.xor t (JS.ushr t 14)) 0)).

Definition hashPosition (seed x z : Z) : Z :=
  let ix := JS.bor x 0 in        (* Math.floor(x) | 0, x an integer *)
  let iz := JS.bor z 0 in
  let h := JS.bor seed 0 in
  let h := JS.imul (JS.xor h ix) 2246822507 (* 0x85ebca6b *) in
  let h := JS.imul (JS.xor h iz) 3266489909 (* 0xc2b2ae35 *) in
  let h := JS.xor h (JS.ushr h 16) in
  JS.ushr h 0.

(** State of the closure after [n] calls, and the number produced by
    call number [n] (counting from 0). *)
Fixpoint mulberry32_state (seed : Z) (n : nat) : Z :=
  match n with
  | O => seed
  | S n' => fst (mulberry32_step (mulberry32_state seed n'))
  end.

Definition mulberry32_output (seed : Z) (n : nat) : Q :=
  snd (mulberry32_step (mulberry32_state seed n)).

(** The sequence produced by [createPositionRandom(seed, x, z)]. *)
Definition position_stream (seed x z : Z) (n : nat) : Q :=
  mulberry32_output (hashPosition seed x z) n.

(** The mixing statements of [hashPosition], one entry per statement,
    in source order. *)
Inductive MixStep :=
| XorMultiply (operand constant : Z)   (* h = Math.imul(h ^ operand, constant) *)
| XorShift (k : Z).                    (* h ^= h >>> k *)

Definition mix (h : Z) (s : MixStep) : Z :=
  match s with
  | XorMultiply operand constant => JS.imul (JS.xor h operand) constant
  | XorShift k => JS.xor h (JS.ushr h k)
  end.

Definition hashPosition_steps (x z : Z) : list MixStep :=
  [ XorMultiply (JS.bor x 0) 2246822507;
    XorMultiply (JS.bor z 0) 3266489909;
    XorShift 16 ].

Definition is_xor_shift (s : MixStep) : bool :=
  match s with XorShift _ => true | XorMultiply _ _ => false end.

Definition xor_shift_rounds (l : list MixStep) : nat :=
  length (List.filter is_xor_shift l).

Definition multiplicative_constants (l : list MixStep) : list Z :=
  List.flat_map (fun s => match s with
                          | XorMultiply _ c => [c]
                          | XorShift _ => []
                          end) l.

(** The same steps read as the specification reads the arithmetic:
    on unsigned 32-bit values, every product reduced modulo 2^32. *)
Definition hashPosition_u32 (seed x z : Z) : Z :=
  let h := seed mod 2 ^ 32 in
  let h := (Z.lxor h (x mod 2 ^ 32) * 2246822507) mod 2 ^ 32 in
  let h := (Z.lxor h (z mod 2 ^ 32) * 3266489909) mod 2 ^ 32 in
  Z.lxor h (Z.shiftr h 16).

(** ** Module state of [math.js] and the closures it hands out

    Every call of [mulberry32] creates a closure with its own captured
    [seed]; the closures returned by [createPositionRandom] are kept in
    a heap indexed by allocation order. The closure stored in the module
    variable [seededRandom] is reachable through [getRandom] only, so
    its captured seed is kept inline. *)

Module Rng.

Inductive RandomFn :=
| MathRandom                 (* seededRandom = Math.random *)
| Seeded (captured : Z).     (* seededRandom = mulberry32(seed) *)

Record State := mkState {
  seededRandom : RandomFn;
  globalWorldSeed : option Z;
  closures : list Z
}.

Definition initial : State :=
  {| seededRandom := MathRandom; globalWorldSeed := None; closures := [] |}.

Inductive Op :=
| OpCreatePositionRandom (seed x z : Z)
| OpCall (g : nat)             (* g(), g a generator handed out earlier *)
| OpSetRandomSeed (seed : Z)
| OpResetRandom
| OpGetRandom (math_random : Q). (* what Math.random() would return now *)

Inductive Result :=
| RGenerator (g : nat)
| RNumber (v : Q)
| RUndefined
| RNotAFunction.

Definition createPositionRandom (seed x z : Z) (st : State) : State * nat :=
  let hash := hashPosition seed x z in
  ({| seededRandom := seededRandom st;
      globalWorldSeed := globalWorldSeed st;
      closures := closures st ++ [hash] |},
   length (closures st)).

Definition call (g : nat) (st : State) : State * Result :=
  match closures st !! g with
  | Some s =>
      let '(s', v) := mulberry32_step s in
      ({| seededRandom := seededRandom st;
          globalWorldSeed := globalWorldSeed st;
          closures := <[g := s']> (closures st) |},
       RNumber v)
  | None => (st, RNotAFunction)
  end.

Definition setRandomSeed (seed : Z) (st : State) : State :=
  {| seededRandom := Seeded seed;
     globalWorldSeed := Some seed;
     closures := closures st |}.

Definition resetRandom (st : State) : State :=
  {| seededRandom := MathRandom;
     globalWorldSeed := None;
     closures := closures st |}.

Definition getRandom (math_random : Q) (st : State) : State * Q :=
  match seededRandom st with
  | MathRandom => (st, math_random)
  | Seeded s =>
      let '(s', v) := mulberry32_step s in
      ({| seededRandom := Seeded s';
          globalWorldSeed := globalWorldSeed st;
          closures := closures st |},
       v)
  end.

Definition exec (o : Op) (st : State) : State * Result :=
  match o with
  | OpCreatePositionRandom seed x z =>
      let '(st', g) := createPositionRandom seed x z st in (st', RGenerator g)
  | OpCall g => call g st
  | OpSetRandomSeed seed => (setRandomSeed seed st, RUndefined)
  | OpResetRandom => (resetRandom st, RUndefined)
  | OpGetRandom r => let '(st', v) := getRandom r st in (st', RNumber v)
  end.

(** The numbers returned, in order, by the calls of generator [g]
    while the operations [ops] run from [st]. *)
Fixpoint outputs_of (g : nat) (ops : list Op) (st : State) : list Q :=
  match ops with
  | [] => []
  | o :: ops' =>
      let '(st', r) := exec o st in
      match o, r with
      | OpCall g', RNumber v =>
          if decide (g' = g) then v :: outputs_of g ops' st'
          else outputs_of g ops' st'
      | _, _ => outputs_of g ops' st'
      end
  end.

Definition is_call (g : nat) (o : Op) : bool :=
  match o with
  | OpCall g' => bool_decide (g' = g)
  | _ => false
  end.

(** How many times [ops] calls generator [g]. *)
Definition calls (g : nat) (ops : list Op) : nat :=
  length (List.filter (is_call g) ops).

End Rng.

(** ** The multiplayer manager ([createMultiplayerManager]) *)

Module Multiplayer.

(** *** The injected client *)

(** What [setSupabaseClient] may be handed: nothing, or a client. *)
Record SupabaseClient := mkClient { client_url : string }.

Inductive ClientRef :=
| JsNull
| JsUndefined
| JsClient (c : SupabaseClient).

(** [!!ref] *)
Definition client_truthy (r : ClientRef) : bool :=
  match r with
  | JsClient _ => true
  | _ => false
  end.

(** The module variable [_supabaseClient] starts as [null]. *)
Definition supabaseClient_initial : ClientRef := JsNull.

Definition setSupabaseClient (client : ClientRef) (_supabaseClient : ClientRef)
  : ClientRef := client.

Definition BROADCAST_THROTTLE_MS : Z := 50.

(** *** Presence data *)

(** The object a peer passes to [channel.track]; a field the peer left
    out (or set to null) is [None]. *)
Record Presence := mkPresence {
  p_playerId : option string;
  p_playerName : option string;
  p_playerColor : option string;
  p_playerAccessories : list string;
  p_joinedAt : option Z;
  p_lastActive : option Z
}.

(** [channel.presenceState()]: an object from presence key to the
    array of presences tracked under that key, keys in insertion order. *)
Definition PresenceState : Type := list (string * list Presence).

(** [Object.keys(state)] *)
Definition keys (state : PresenceState) : list string := state.*1.

(** [state[pid]] *)
Fixpoint state_get (state : PresenceState) (pid : string) : option (list Presence) :=
  match state with
  | [] => None
  | (k, v) :: rest => if decide (k = pid) then Some v else state_get rest pid
  end.

(** [state[pid]?.[0]] *)
Definition first_presence (state : PresenceState) (pid : string) : option Presence :=
  state_get state pid ≫= head.

(** [a || b] where [a] is a possibly missing number: 0 and a missing
    value are falsy. *)
Definition num_or (a : option Z) (b : Z) : Z :=
  match a with
  | Some v => if v =? 0 then b else v
  | None => b
  end.

(** Sync handler:
    [joinedAt = presenceData?.joinedAt || 0;
     lastActive = presenceData?.lastActive || joinedAt]. *)
Definition sync_lastActive (presenceData : option Presence) : Z :=
  let joinedAt := num_or (presenceData ≫= p_joinedAt) 0 in
  num_or (presenceData ≫= p_lastActive) joinedAt.

(** Join handler and delayed check:
    [presence?.lastActive || presence?.joinedAt || 0]. *)
Definition join_lastActive (presence : option Presence) : Z :=
  num_or (presence ≫= p_lastActive) (num_or (presence ≫= p_joinedAt) 0).

Definition STALE_THRESHOLD : Z := 300000.

(** *** Observable effects *)

Record MovePayload := mkMove {
  mv_playerId : option string;
  mv_x : Q; mv_y : Q; mv_z : Q;
  mv_rotation : Q; mv_vx : Q; mv_vz : Q;
  mv_isMoving : bool; mv_grounded : bool;
  mv_timestamp : Z
}.

Inductive Event :=
| CallOnPlayerJoin (pid : string) (presenceData : option Presence)
| CallOnPlayerPresenceUpdate (pid : string) (presenceData : option Presence)
| CallOnPlayerLeave (pid : string)
| CallOnWorldSeedReceived (seed : option Z)
| ChannelTrack (p : Presence)
| ChannelUntrack
| RemoveChannel
| ChannelSendPlayerMove (payload : MovePayload)
| UncaughtTypeError.

(** *** Manager state: the variables closed over by the manager's
    functions. A callback variable is [true] once the game has set it. *)
Record Manager := mkManager {
  supabase : SupabaseClient;
  ROOM_ID : string;
  CHANNEL_NAME : string;
  channel : option string;
  playerId : option string;
  playerName : option string;
  playerColor : option string;
  playerAccessories : list string;
  isHost : bool;
  worldSeed : option Z;
  lastBroadcastTime : Z;
  onPlayerJoin : bool;
  onPlayerLeave : bool;
  onPlayerPresenceUpdate : bool;
  onWorldSeedReceived : bool;
  spawnedPlayers : gset string
}.

Definition new_manager (client : SupabaseClient) (worldId : string) : Manager :=
  {| supabase := client;
     ROOM_ID := worldId;
     CHANNEL_NAME := "game_room_" +:+ worldId;
     channel := None;
     playerId := None;
     playerName := None;
     playerColor := None;
     playerAccessories := [];
     isHost := false;
     worldSeed := None;
     lastBroadcastTime := 0;
     onPlayerJoin := false;
     onPlayerLeave := false;
     onPlayerPresenceUpdate := false;
     onWorldSeedReceived := false;
     spawnedPlayers := ∅ |}.

Inductive Thrown := ErrorClientNotSet.

(** [createMultiplayerManager(worldId = 'portal')], reading the module
    variable; [None] is a call without the argument. *)
Definition createMultiplayerManager (worldId : option string)
  (_supabaseClient : ClientRef) : Thrown + Manager :=
  if negb (client_truthy _supabaseClient) then inl ErrorClientNotSet
  else
    match _supabaseClient with
    | JsClient c => inr (new_manager c (default "portal" worldId))
    | _ => inl ErrorClientNotSet
    end.

Definition set_channel (c : option string) (m : Manager) : Manager :=
  mkManager (supabase m) (ROOM_ID m) (CHANNEL_NAME m) c (playerId m)
    (playerName m) (playerColor m) (playerAccessories m) (isHost m)
    (worldSeed m) (lastBroadcastTime m) (onPlayerJoin m) (onPlayerLeave m)
    (onPlayerPresenceUpdate m) (onWorldSeedReceived m) (spawnedPlayers m).

Definition set_spawnedPlayers (sp : gset string) (m : Manager) : Manager :=
  mkManager (supabase m) (ROOM_ID m) (CHANNEL_NAME m) (channel m) (playerId m)
    (playerName m) (playerColor m) (playerAccessories m) (isHost m)
    (worldSeed m) (lastBroadcastTime m) (onPlayerJoin m) (onPlayerLeave m)
    (onPlayerPresenceUpdate m) (onWorldSeedReceived m) sp.

Definition set_lastBroadcastTime (t : Z) (m : Manager) : Manager :=
  mkManager (supabase m) (ROOM_ID m) (CHANNEL_NAME m) (channel m) (playerId m)
    (playerName m) (playerColor m) (playerAccessories m) (isHost m)
    (worldSeed m) t (onPlayerJoin m) (onPlayerLeave m)
    (onPlayerPresenceUpdate m) (onWorldSeedReceived m) (spawnedPlayers m).

Definition set_world (seed : option Z) (host : bool) (m : Manager) : Manager :=
  mkManager (supabase m) (ROOM_ID m) (CHANNEL_NAME m) (channel m) (playerId m)
    (playerName m) (playerColor m) (playerAccessories m) host
    seed (lastBroadcastTime m) (onPlayerJoin m) (onPlayerLeave m)
    (onPlayerPresenceUpdate m) (onWorldSeedReceived m) (spawnedPlayers m).

(** The identity [init] settles on (from the customization table,
    from localStorage, or freshly generated). *)
Record Identity := mkIdentity {
  id_playerId : string;
  id_playerName : string;
  id_playerColor : string;
  id_playerAccessories : list string
}.

Definition set_identity (i : Identity) (m : Manager) : Manager :=
  mkManager (supabase m) (ROOM_ID m) (CHANNEL_NAME m) (channel m)
    (Some (id_playerId i)) (Some (id_playerName i)) (Some (id_playerColor i))
    (id_playerAccessories i) (isHost m)
    (worldSeed m) (lastBroadcastTime m) (onPlayerJoin m) (onPlayerLeave m)
    (onPlayerPresenceUpdate m) (onWorldSeedReceived m) (spawnedPlayers m).

Definition setOnPlayerJoin (m : Manager) : Manager :=
  mkManager (supabase m) (ROOM_ID m) (CHANNEL_NAME m) (channel m) (playerId m)
    (playerName m) (playerColor m) (playerAccessories m) (isHost m)
    (worldSeed m) (lastBroadcastTime m) true (onPlayerLeave m)
    (onPlayerPresenceUpdate m) (onWorldSeedReceived m) (spawnedPlayers m).

Definition setOnPlayerPresenceUpdate (m : Manager) : Manager :=
  mkManager (supabase m) (ROOM_ID m) (CHANNEL_NAME m) (channel m) (playerId m)
    (playerName m) (playerColor m) (playerAccessories m) (isHost m)
    (worldSeed m) (lastBroadcastTime m) (onPlayerJoin m) (onPlayerLeave m)
    true (onWorldSeedReceived m) (spawnedPlayers m).

(** *** Presence handlers *)

(** One iteration of the [for (const pid of playerIds)] loop of the
    sync handler. *)
Definition sync_one (now : Z) (state : PresenceState) (pid : string) (m : Manager)
  : Manager * list Event :=
  if bool_decide (playerId m = Some pid) then (m, [])
  else
    let presenceData := first_presence state pid in
    let lastActive := sync_lastActive presenceData in
    if STALE_THRESHOLD <? now - lastActive then (m, [])
    else if negb (bool_decide (pid ∈ spawnedPlayers m)) then
      (set_spawnedPlayers ({[pid]} ∪ spawnedPlayers m) m,
       if onPlayerJoin m then [CallOnPlayerJoin pid presenceData] else [])
    else if onPlayerPresenceUpdate m then
      (m, [CallOnPlayerPresenceUpdate pid presenceData])
    else (m, []).

Fixpoint sync_loop (now : Z) (state : PresenceState) (playerIds : list string)
  (m : Manager) : Manager * list Event :=
  match playerIds with
  | [] => (m, [])
  | pid :: rest =>
      let '(m1, evs1) := sync_one now state pid m in
      let '(m2, evs2) := sync_loop now state rest m1 in
      (m2, evs1 ++ evs2)
  end.

(** [channel.on("presence", { event: "sync" }, ...)]; [state] is what
    [channel.presenceState()] returns and [now] is [Date.now()]. *)
Definition on_presence_sync (state : PresenceState) (now : Z) (m : Manager)
  : Manager * list Event :=
  sync_loop now state (keys state) m.

(** [channel.on("presence", { event: "join" }, ...)] *)
Definition on_presence_join (key : string) (newPresences : list Presence)
  (now : Z) (m : Manager) : Manager * list Event :=
  if negb (bool_decide (playerId m = Some key))
     && negb (bool_decide (key ∈ spawnedPlayers m)) then
    let presence := head newPresences in
    let lastActive := join_lastActive presence in
    if 300000 <? now - lastActive then (m, [])
    else
      (set_spawnedPlayers ({[key]} ∪ spawnedPlayers m) m,
       if onPlayerJoin m then [CallOnPlayerJoin key presence] else [])
  else (m, []).

(** [channel.on("presence", { event: "leave" }, ...)] *)
Definition on_presence_leave (key : string) (m : Manager) : Manager * list Event :=
  (set_spawnedPlayers (spawnedPlayers m ∖ {[key]}) m,
   if onPlayerLeave m && negb (bool_decide (playerId m = Some key))
   then [CallOnPlayerLeave key] else []).

(** One iteration of the loop of the delayed check. *)
Definition delayed_one (now : Z) (state : PresenceState) (pid : string) (m : Manager)
  : Manager * list Event :=
  if negb (bool_decide (playerId m = Some pid))
     && negb (bool_decide (pid ∈ spawnedPlayers m)) then
    let presenceData := first_presence state pid in
    let lastActive := join_lastActive presenceData in
    if STALE_THRESHOLD <? now - lastActive then (m, [])
    else
      (set_spawnedPlayers ({[pid]} ∪ spawnedPlayers m) m,
       if onPlayerJoin m then [CallOnPlayerJoin pid presenceData] else [])
  else (m, []).

Fixpoint delayed_loop (now : Z) (state : PresenceState) (playerIds : list string)
  (m : Manager) : Manager * list Event :=
  match playerIds with
  | [] => (m, [])
  | pid :: rest =>
      let '(m1, evs1) := delayed_one now state pid m in
      let '(m2, evs2) := delayed_loop now state rest m1 in
      (m2, evs1 ++ evs2)
  end.

(** The callback of [setTimeout(..., 500)]. It calls
    [channel.presenceState()] without a guard: with [channel] null the
    call throws. *)
Definition delayed_sync (state : PresenceState) (now : Z) (m : Manager)
  : Manager * list Event :=
  match channel m with
  | None => (m, [UncaughtTypeError])
  | Some _ => delayed_loop now state (keys state) m
  end.

(** The presence this peer publishes. *)
Definition own_presence (m : Manager) (joinedAt lastActive : Z) : Presence :=
  {| p_playerId := playerId m;
     p_playerName := playerName m;
     p_playerColor := playerColor m;
     p_playerAccessories := playerAccessories m;
     p_joinedAt := Some joinedAt;
     p_lastActive := Some lastActive |}.

(** The callback of [setInterval(..., 20000)]; [joinedAt] is the [now]
    captured when the channel subscribed. *)
Definition heartbeat (joinedAt : Z) (now : Z) (m : Manager) : list Event :=
  match channel m with
  | Some _ => [ChannelTrack (own_presence m joinedAt now)]
  | None => []
  end.

(** *** Position broadcast and leave *)

Record Position := mkPosition {
  pos_x : Q; pos_y : Q; pos_z : Q;
  pos_rotation : Q; pos_vx : Q; pos_vz : Q;
  pos_isMoving : bool; pos_grounded : bool
}.

Definition broadcastPosition (a : Position) (now : Z) (m : Manager)
  : Manager * list Event :=
  match channel m with
  | None => (m, [])
  | Some _ =>
      if now - lastBroadcastTime m <? BROADCAST_THROTTLE_MS then (m, [])
      else
        (set_lastBroadcastTime now m,
         [ChannelSendPlayerMove
            {| mv_playerId := playerId m;
               mv_x := pos_x a; mv_y := pos_y a; mv_z := pos_z a;
               mv_rotation := pos_rotation a;
               mv_vx := pos_vx a; mv_vz := pos_vz a;
               mv_isMoving := pos_isMoving a; mv_grounded := pos_grounded a;
               mv_timestamp := now |}])
  end.

Definition leave (m : Manager) : Manager * list Event :=
  match channel m with
  | None => (m, [])
  | Some _ => (set_channel None m, [ChannelUntrack; RemoveChannel])
  end.

(** *** The [worlds] table

    The table lives in the external store and is shared by all peers.
    Rows are keyed by [id]; an insert under an [id] already present is
    refused with an error and changes nothing, an update touches only
    the columns it names. *)

Record WorldRow := mkWorld {
  w_seed : Z;
  w_owner_player_id : option string;
  w_name : string
}.

Record StoreError := mkStoreError { code : string }.

Abbreviation Store := (gmap string WorldRow).

(** [{ data, error }] *)
Definition Response : Type := option WorldRow * option StoreError.

(** The requests the manager sends to the table. *)
Inductive Cmd :=
| CSelect (id : string)                         (* .select("*").eq("id", id).single() *)
| CUpdateOwner (id : string) (owner : string)   (* .update({ owner_player_id }).eq("id", id) *)
| CInsert (id : string) (row : WorldRow).       (* .insert({ id, seed, owner_player_id, name }) *)

Definition select_single (id : string) (s : Store) : Response :=
  match s !! id with
  | Some w => (Some w, None)
  | None => (None, Some (mkStoreError "PGRST116"))
  end.

Definition set_owner (owner : string) (w : WorldRow) : WorldRow :=
  {| w_seed := w_seed w; w_owner_player_id := Some owner; w_name := w_name w |}.

Definition update_owner (id : string) (owner : string) (s : Store) : Store :=
  alter (set_owner owner) id s.

Definition insert_world (id : string) (row : WorldRow) (s : Store)
  : Store * option StoreError :=
  match s !! id with
  | Some _ => (s, Some (mkStoreError "23505"))
  | None => (<[id := row]> s, None)
  end.

Definition apply_cmd (c : Cmd) (s : Store) : Store :=
  match c with
  | CSelect _ => s
  | CUpdateOwner id owner => update_owner id owner s
  | CInsert id row => fst (insert_world id row s)
  end.

Definition apply_cmds (cs : list Cmd) (s : Store) : Store :=
  foldl (fun s c => apply_cmd c s) s cs.

(** *** Host arbitration

    The part of [init] that talks to the table, as a tree of requests:
    each [await] is a node whose continuation receives the response. *)

Inductive Proc (A : Type) :=
| Ret (a : A)
| SelectWorld (id : string) (k : Response -> Proc A)
| UpdateOwner (id : string) (owner : string) (k : unit -> Proc A)
| InsertWorld (id : string) (row : WorldRow) (k : option StoreError -> Proc A).

Arguments Ret {A} a.
Arguments SelectWorld {A} id k.
Arguments UpdateOwner {A} id owner k.
Arguments InsertWorld {A} id row k.

(** The numbers [Math.random()] can return: the doubles of [0, 1),
    written as a fraction [m / 2^e] with [m] below [2^53] (the 53
    significant bits of a double) and [e] at most 1074 (the finest
    spacing of doubles). *)
Definition unit_double (r : Q) : bool :=
  let d := Zpos (Qden r) in
  (d =? 2 ^ Z.log2 d) && (Z.log2 d <=? 1074)
  && (0 <=? Qnum r) && (Qnum r <? 2 ^ 53) && (Qnum r <? d).

(** [Math.floor(Math.random() * 1000000)], [rnd] being the double
    [Math.random()] returns, written [m / 2^e]. The product is a double
    multiplication: the exact product [m * 1000000 / 2^e] is rounded to
    the nearest double, which rounds its numerator to 53 significant
    bits, and [Math.floor] is taken of the rounded product. *)
Definition generateWorldSeed (rnd : Q) : Z :=
  Qfloor (Qmake (JS.round_double (Qnum rnd * 1000000)) (Qden rnd)).

(** [!owner_player_id]: null and the empty string are falsy. *)
Definition owner_falsy (o : option string) : bool :=
  match o with
  | None => true
  | Some s => bool_decide (s = "")
  end.

(** [Object.keys(presenceState).filter((pid) => pid !== playerId)] *)
Definition otherPlayers (presenceState : PresenceState) (playerId : string)
  : list string :=
  filter (fun pid => pid ≠ playerId) (keys presenceState).

(** What the arbitration leaves in [worldSeed] and [isHost]. *)
Record Resolved := mkResolved { r_worldSeed : Z; r_isHost : bool }.

Definition arbitrate (ROOM_ID playerId : string) (otherPlayers : list string)
  (rnd : Q) : Proc Resolved :=
  SelectWorld ROOM_ID (fun '(existingWorld, fetchError) =>
    match existingWorld with
    | Some w =>
        let worldSeed := w_seed w in
        if bool_decide (length otherPlayers = 0%nat)
           && owner_falsy (w_owner_player_id w) then
          UpdateOwner ROOM_ID playerId (fun _ =>
            Ret (mkResolved worldSeed true))
        else
          Ret (mkResolved worldSeed
                 (bool_decide (w_owner_player_id w = Some playerId)))
    | None =>
        let worldSeed := generateWorldSeed rnd in
        InsertWorld ROOM_ID
          {| w_seed := worldSeed;
             w_owner_player_id := Some playerId;
             w_name := "Untitled World" |}
          (fun insertError =>
             match insertError with
             | Some _ =>
                 SelectWorld ROOM_ID (fun '(raceWorld, _) =>
                   match raceWorld with
                   | Some rw => Ret (mkResolved (w_seed rw) false)
                   | None => Ret (mkResolved worldSeed true)
                   end)
             | None => Ret (mkResolved worldSeed true)
             end)
    end).

(** Running a request tree against the table while other peers write
    to it: [sched] lists, for each request in turn, the requests of
    other peers that reach the table just before it. Returns the
    result, the table afterwards and the requests this peer sent. *)
Fixpoint run {A : Type} (p : Proc A) (sched : list (list Cmd)) (s : Store)
  : A * Store * list Cmd :=
  match p with
  | Ret a => (a, s, [])
  | SelectWorld id k =>
      let s1 := apply_cmds (List.hd [] sched) s in
      let '(a, s2, cs) := run (k (select_single id s1)) (List.tl sched) s1 in
      (a, s2, CSelect id :: cs)
  | UpdateOwner id owner k =>
      let s1 := apply_cmds (List.hd [] sched) s in
      let '(a, s2, cs) := run (k tt) (List.tl sched) (update_owner id owner s1) in
      (a, s2, CUpdateOwner id owner :: cs)
  | InsertWorld id row k =>
      let s1 := apply_cmds (List.hd [] sched) s in
      let '(s1', err) := insert_world id row s1 in
      let '(a, s2, cs) := run (k err) (List.tl sched) s1' in
      (a, s2, CInsert id row :: cs)
  end.

(** *** Timers and the phases of [init] *)

Inductive Timer :=
| HeartbeatInterval (ms : Z) (joinedAt : Z)   (* setInterval(heartbeat, 20000) *)
| DelayedSyncTimeout (ms : Z).                (* setTimeout(delayed check, 500) *)

(** The manager together with the timers registered with the host
    environment and everything done so far. A timer stays registered
    until it is cleared or, for a timeout, until it has fired. *)
Record Runtime := mkRuntime {
  manager : Manager;
  timers : list Timer;
  trace : list Event
}.

Definition lift (f : Manager -> Manager * list Event) (rt : Runtime) : Runtime :=
  let '(m, evs) := f (manager rt) in
  mkRuntime m (timers rt) (trace rt ++ evs).

(** [init] up to [supabase.channel(...)]: the identity is fixed, the
    channel and a fresh [spawnedPlayers] set are created. *)
Definition init_open (i : Identity) (m : Manager) : Manager :=
  let m := set_identity i m in
  set_spawnedPlayers ∅ (set_channel (Some (CHANNEL_NAME m)) m).

(** The subscribe callback on status SUBSCRIBED. *)
Definition init_subscribed (now : Z) (rt : Runtime) : Runtime :=
  mkRuntime (manager rt)
    (timers rt ++ [HeartbeatInterval 20000 now])
    (trace rt ++ [ChannelTrack (own_presence (manager rt) now now)]).

(** [init] after the arbitration: the delayed check is scheduled and
    the game is told the seed. *)
Definition init_finish (r : Resolved) (rt : Runtime) : Runtime :=
  let m := set_world (Some (r_worldSeed r)) (r_isHost r) (manager rt) in
  mkRuntime m
    (timers rt ++ [DelayedSyncTimeout 500])
    (trace rt ++ (if onWorldSeedReceived m
                  then [CallOnWorldSeedReceived (Some (r_worldSeed r))] else [])).

(** A whole [init] with no event delivered in between. *)
Definition init (i : Identity) (subscribed_at : Z) (presenceState : PresenceState)
  (rnd : Q) (sched : list (list Cmd)) (s : Store) (m : Manager) : Runtime * Store :=
  let m := init_open i m in
  let rt := init_subscribed subscribed_at (mkRuntime m [] []) in
  let others := otherPlayers presenceState (id_playerId i) in
  let '(r, s', _) := run (arbitrate (ROOM_ID m) (id_playerId i) others rnd) sched s in
  (init_finish r rt, s').

(** The host environment fires timer number [n]: an interval stays
    registered, a timeout is removed. [state] is the presence state and
    [now] the clock at that moment. *)
Definition fire (n : nat) (state : PresenceState) (now : Z) (rt : Runtime)
  : option Runtime :=
  match timers rt !! n with
  | None => None
  | Some (HeartbeatInterval _ joinedAt) =>
      Some (mkRuntime (manager rt) (timers rt)
              (trace rt ++ heartbeat joinedAt now (manager rt)))
  | Some (DelayedSyncTimeout _) =>
      let '(m, evs) := delayed_sync state now (manager rt) in
      Some (mkRuntime m (delete n (timers rt)) (trace rt ++ evs))
  end.

Definition rt_leave (rt : Runtime) : Runtime := lift leave rt.

(** *** Vocabulary for the statements below *)

(** The module variable after the given [setSupabaseClient] calls, in
    order, starting from a freshly loaded module. *)
Definition client_after (calls : list ClientRef) : ClientRef :=
  foldl (fun cur c => setSupabaseClient c cur) supabaseClient_initial calls.

(** The peer a game callback is invoked for. *)
Definition callback_peer (e : Event) : option string :=
  match e with
  | CallOnPlayerJoin pid _ => Some pid
  | CallOnPlayerPresenceUpdate pid _ => Some pid
  | CallOnPlayerLeave pid => Some pid
  | _ => None
  end.

(** The callback invocations, among [evs], made for peer [pid]. *)
Definition calls_for (pid : string) (evs : list Event) : list Event :=
  filter (fun e => callback_peer e = Some pid) evs.

(** The last-activity timestamp of an entry, read off its fields:
    [lastActive] when the entry has one, else [joinedAt], else 0. *)
Definition last_activity (pd : option Presence) : Z :=
  match pd ≫= p_lastActive with
  | Some v => v
  | None => default 0 (pd ≫= p_joinedAt)
  end.

End Multiplayer.

(** ** Sample data for the worked instances below *)

Module Sample.

Import Multiplayer.

Definition now : Z := 1700000000000.

Definition me : Identity := mkIdentity "player_me" "HappyFox" "#4ecdc4" [].

(** A manager whose [init] has opened the channel, with the join and
    presence-update callbacks set. *)
Definition joined : Manager :=
  setOnPlayerPresenceUpdate
    (setOnPlayerJoin
       (init_open me (new_manager (mkClient "https://db.example") "portal"))).

(** A peer last active 400 s ago, and one active 5 s ago. *)
Definition stale_peer : Presence :=
  mkPresence (Some "p1") (Some "SleepyOwl") (Some "#ff6b6b") []
    (Some (now - 900000)) (Some (now - 400000)).

Definition fresh_peer : Presence :=
  mkPresence (Some "p2") (Some "ZippyCat") (Some "#ff0000") []
    (Some (now - 60000)) (Some (now - 5000)).

(** The table with room "portal" present and not owned. *)
Definition unowned : Store := {[ "portal" := mkWorld 424242 None "Untitled World" ]}.

(** A session: [init] run to completion against that table with no
    other peer present. *)
Definition session : Runtime :=
  fst (init me now [] (1 # 2) [] unowned
         (new_manager (mkClient "https://db.example") "portal")).

End Sample.

(** ** More JavaScript number operations *)

Module JSNum.

(** [a - b] on numbers holding integers. *)
Definition sub (a b : Z) : Z := JS.round_double (a - b).

(** [a * b] on numbers holding integers. *)
Definition mul (a b : Z) : Z := JS.round_double (a * b).

(** [r * k] for a double [r] written as a fraction over a power of two
    and an integer [k]: the exact product is [Qnum r * k] over the same
    power of two, and scaling by a power of two does not change which
    double is nearest. *)
Definition mul_unit (r : Q) (k : Z) : Q :=
  Qmake (JS.round_double (Qnum r * k)) (Qden r).

(** [arr[i]] for a number [i] holding an integer: [undefined] outside
    the array. *)
Definition index {A : Type} (arr : list A) (i : Z) : option A :=
  if i <? 0 then None else arr !! Z.to_nat i.

End JSNum.

(** ** The users of the global generator in [math.js] *)

Module RngUse.

Import Rng.

(** The mixing half of a [mulberry32] call, applied to the captured
    seed after its increment. *)
Definition mulberry32_mix (t : Z) : Q :=
  let t := JS.imul (JS.xor t (JS.ushr t 15)) (JS.bor t 1) in
  let t := JS.xor t (JS.add t (JS.imul (JS.xor t (JS.ushr t 7)) (JS.bor t 61))) in
  JS.div_two32 (JS.ushr (JS.xor t (JS.ushr t 14)) 0).

Definition getWorldSeed (st : State) : option Z := globalWorldSeed st.

(** [Math.floor(seededRandom() * (max - min + 1)) + min] *)
Definition randInt (min max : Z) (math_random : Q) (st : State) : State * Z :=
  let '(st', r) := getRandom math_random st in
  (st', JS.add (Qfloor (JSNum.mul_unit r (JS.add (JSNum.sub max min) 1))) min).

(** [arr[Math.floor(seededRandom() * arr.length)]] *)
Definition choice {A : Type} (arr : list A) (math_random : Q) (st : State)
  : State * option A :=
  let '(st', r) := getRandom math_random st in
  (st', JSNum.index arr (Qfloor (JSNum.mul_unit r (Z.of_nat (length arr))))).

End RngUse.

(** ** Biome selection ([constants.js]), the caller of
    [createPositionRandom] *)

Module Biomes.

Import Rng RngUse.

Definition BIOME_CHUNK_SIZE_DEFAULT : Q := 18.

(** [Object.entries(DEFAULT_BIOME_WEIGHTS)] *)
Definition DEFAULT_BIOME_WEIGHTS : list (string * Z) :=
  [("forest", 3); ("sakura", 2); ("autumn", 2); ("desert", 1); ("snow", 1)].

(** What [rebuildBiomePool(weights)] leaves in [BIOME_POOL]; [weights]
    lists the entries of the object, with integer weights. *)
Definition rebuildBiomePool (weights : list (string * Z)) : list string :=
  List.flat_map (fun '(name, weight) => replicate (Z.to_nat weight) name) weights.

(** The cache maps the key [`${seed}_${cellX}_${cellZ}`] to the biome
    stored under it (possibly [undefined]). The decimal strings of
    integers never contain an underscore, so such a key determines the
    three integers and the cache is keyed by the triple. *)
Record State := mkState {
  BIOME_POOL : list string;
  biomeCache : gmap (Z * Z * Z) (option string);
  customBiomeChunkSize : option Q
}.

(** The module right after loading. *)
Definition initial : State :=
  {| BIOME_POOL := rebuildBiomePool DEFAULT_BIOME_WEIGHTS;
     biomeCache := ∅;
     customBiomeChunkSize := None |}.

Definition resetBiomes (b : State) : State :=
  {| BIOME_POOL := BIOME_POOL b;
     biomeCache := ∅;
     customBiomeChunkSize := customBiomeChunkSize b |}.

Definition getBiomeChunkSize (b : State) : Q :=
  match customBiomeChunkSize b with
  | Some n => if Qeq_bool n 0 then BIOME_CHUNK_SIZE_DEFAULT else n
  | None => BIOME_CHUNK_SIZE_DEFAULT
  end.

(** [config.biomeWeights]: an object, null, or anything else. *)
Inductive WeightsField :=
| WeightsObject (weights : list (string * Z))
| WeightsNull
| WeightsOther.

(** [config.biomeChunkSize]: a number, null, or anything else. *)
Inductive ChunkField :=
| ChunkNumber (n : Q)
| ChunkNull
| ChunkOther.

Record Config := mkConfig {
  biomeWeights : WeightsField;
  biomeChunkSize : ChunkField
}.

(** [setBiomeConfig(config)]; [None] is a missing (falsy) config. *)
Definition setBiomeConfig (config : option Config) (b : State) : State :=
  match config with
  | None => b
  | Some cfg =>
      let pool :=
        match biomeWeights cfg with
        | WeightsObject w => rebuildBiomePool w
        | WeightsNull => rebuildBiomePool DEFAULT_BIOME_WEIGHTS
        | WeightsOther => BIOME_POOL b
        end in
      let chunk :=
        match biomeChunkSize cfg with
        | ChunkNumber n => if Qlt_le_dec 0 n then Some n else customBiomeChunkSize b
        | ChunkNull => None
        | ChunkOther => customBiomeChunkSize b
        end in
      {| BIOME_POOL := pool; biomeCache := ∅; customBiomeChunkSize := chunk |}
  end.

(** [getWorldSeed() || 12345] *)
Definition cell_seed (rng : Rng.State) : Z :=
  match getWorldSeed rng with
  | Some s => if s =? 0 then 12345 else s
  | None => 12345
  end.

Definition getBiomeForCell (cellX cellZ : Z) (rng : Rng.State) (b : State)
  : Rng.State * State * option string :=
  let seed := cell_seed rng in
  let cacheKey := (seed, cellX, cellZ) in
  match biomeCache b !! cacheKey with
  | Some cached => (rng, b, cached)
  | None =>
      let '(rng1, g) :=
        createPositionRandom seed (JSNum.mul cellX 1000) (JSNum.mul cellZ 1000) rng in
      let '(rng2, res) := call g rng1 in
      match res with
      | RNumber r =>
          let biomeIndex :=
            Qfloor (JSNum.mul_unit r (Z.of_nat (length (BIOME_POOL b)))) in
          let selectedBiome := JSNum.index (BIOME_POOL b) biomeIndex in
          (rng2,
           {| BIOME_POOL := BIOME_POOL b;
              biomeCache := <[cacheKey := selectedBiome]> (biomeCache b);
              customBiomeChunkSize := customBiomeChunkSize b |},
           selectedBiome)
      | _ => (rng2, b, None)
      end
  end.

(** The biome of a cell computed afresh from the pool and the seed. *)
Definition biome_of (pool : list string) (seed cellX cellZ : Z) : option string :=
  JSNum.index pool
    (Qfloor (JSNum.mul_unit
               (position_stream seed (JSNum.mul cellX 1000) (JSNum.mul cellZ 1000) 0)
               (Z.of_nat (length pool)))).

(** What a world does with the two modules between biome lookups. *)
Inductive Op :=
| OpGetBiomeForCell (cellX cellZ : Z)
| OpSetBiomeConfig (config : option Config)
| OpResetBiomes
| OpSetRandomSeed (seed : Z)
| OpResetRandom.

Definition exec (o : Op) (st : Rng.State * State) : Rng.State * State :=
  let '(rng, b) := st in
  match o with
  | OpGetBiomeForCell cx cz => (getBiomeForCell cx cz rng b).1
  | OpSetBiomeConfig cfg => (rng, setBiomeConfig cfg b)
  | OpResetBiomes => (rng, resetBiomes b)
  | OpSetRandomSeed seed => (setRandomSeed seed rng, b)
  | OpResetRandom => (resetRandom rng, b)
  end.

Definition run (ops : list Op) (st : Rng.State * State) : Rng.State * State :=
  foldl (fun st o => exec o st) st ops.

(** Every cached biome is the one a fresh computation gives. *)
Definition cache_coherent (b : State) : Prop :=
  forall seed cx cz v,
    biomeCache b !! (seed, cx, cz) = Some v -> v = biome_of (BIOME_POOL b) seed cx cz.

End Biomes.

(** ** Sequences of events at one manager, and identity helpers *)

Module Session.

Import Multiplayer.

Inductive PresenceEvent :=
| PSync (state : PresenceState) (now : Z)
| PJoin (key : string) (newPresences : list Presence) (now : Z)
| PLeave (key : string)
| PDelayed (state : PresenceState) (now : Z).

Definition deliver (e : PresenceEvent) (m : Manager) : Manager * list Event :=
  match e with
  | PSync state now => on_presence_sync state now m
  | PJoin key newPresences now => on_presence_join key newPresences now m
  | PLeave key => on_presence_leave key m
  | PDelayed state now => delayed_sync state now m
  end.

Fixpoint deliver_all (es : list PresenceEvent) (m : Manager) : Manager * list Event :=
  match es with
  | [] => (m, [])
  | e :: rest =>
      let '(m1, evs1) := deliver e m in
      let '(m2, evs2) := deliver_all rest m1 in
      (m2, evs1 ++ evs2)
  end.

Definition is_join_for (pid : string) (e : Event) : bool :=
  match e with
  | CallOnPlayerJoin p _ => bool_decide (p = pid)
  | _ => false
  end.

(** How often the join callback was invoked for [pid]. *)
Definition joins_for (pid : string) (evs : list Event) : nat :=
  length (List.filter (is_join_for pid) evs).

Definition is_leave_of (pid : string) (e : PresenceEvent) : bool :=
  match e with
  | PLeave k => bool_decide (k = pid)
  | _ => false
  end.

(** How many leave events for [pid] were delivered. *)
Definition leaves_of (pid : string) (es : list PresenceEvent) : nat :=
  length (List.filter (is_leave_of pid) es).

(** A run of [broadcastPosition] calls, each with the clock at the
    time of the call. *)
Fixpoint broadcast_all (calls : list (Position * Z)) (m : Manager)
  : Manager * list Event :=
  match calls with
  | [] => (m, [])
  | (a, now) :: rest =>
      let '(m1, evs1) := broadcastPosition a now m in
      let '(m2, evs2) := broadcast_all rest m1 in
      (m2, evs1 ++ evs2)
  end.

(** The timestamps of the position messages sent, in order. *)
Definition send_times (evs : list Event) : list Z :=
  List.flat_map (fun e => match e with
                          | ChannelSendPlayerMove p => [mv_timestamp p]
                          | _ => []
                          end) evs.

(** Each timestamp is at least [gap] after the one before it, the
    first at least [gap] after [last]. *)
Fixpoint spaced (gap last : Z) (ts : list Z) : Prop :=
  match ts with
  | [] => True
  | t :: rest => gap <= t - last /\ spaced gap t rest
  end.

(** One more join callback is possible for [pid] only while it is not
    in the spawned set. *)
Definition join_budget (pid : string) (m : Manager) : nat :=
  if bool_decide (pid ∈ spawnedPlayers m) then 0%nat else 1%nat.

(** The shape shared by the loops of the sync handler and of the
    delayed check: a step per roster key, effects in order. *)
Fixpoint for_each (step : string -> Manager -> Manager * list Event)
  (playerIds : list string) (m : Manager) : Manager * list Event :=
  match playerIds with
  | [] => (m, [])
  | pid :: rest =>
      let '(m1, evs1) := step pid m in
      let '(m2, evs2) := for_each step rest m1 in
      (m2, evs1 ++ evs2)
  end.

(** A step either leaves the manager alone, invoking no join callback
    and nothing for any other peer (and nothing at all for the local
    peer), or spawns a remote peer that was not spawned, invoking at
    most the join callback for it. *)
Definition spawn_step (step : string -> Manager -> Manager * list Event) : Prop :=
  forall pid m,
    (exists evs,
        step pid m = (m, evs)
        /\ (forall q, joins_for q evs = 0%nat)
        /\ (playerId m = Some pid -> evs = [])
        /\ (forall q, q <> pid -> calls_for q evs = []))
    \/ ((pid ∉ spawnedPlayers m)
        /\ playerId m <> Some pid
        /\ exists pd,
            step pid m
            = (set_spawnedPlayers ({[pid]} ∪ spawnedPlayers m) m,
               if onPlayerJoin m then [CallOnPlayerJoin pid pd] else [])).

Definition ADJECTIVES : list string :=
  ["Happy"; "Sleepy"; "Fluffy"; "Bouncy"; "Cozy"; "Dizzy"; "Fuzzy"; "Jolly";
   "Lucky"; "Peppy"; "Silly"; "Snuggly"; "Speedy"; "Sparkly"; "Wiggly"; "Zippy"].

Definition ANIMALS : list string :=
  ["Bunny"; "Fox"; "Bear"; "Panda"; "Koala"; "Otter"; "Penguin"; "Owl";
   "Cat"; "Dog"; "Duck"; "Frog"; "Hamster"; "Hedgehog"; "Raccoon"; "Squirrel"].

(** [if (saved)] for what [localStorage.getItem] returned ([None] also
    when there is no [window]): null and the empty string are falsy. *)
Definition saved_value (saved : option string) : option string :=
  match saved with
  | Some v => if bool_decide (v = "") then None else Some v
  | None => None
  end.

(** [Math.floor(Math.random() * arr.length)] for the two name lists,
    whose length is 16: multiplying a double by 16 is exact. *)
Definition random_index16 (rnd : Q) : Z := Qfloor (rnd * 16).

(** [generatePlayerName()]: [saved] is the stored [playerName],
    [rnd1] and [rnd2] what the two [Math.random()] calls return. A
    missing array element prints as "undefined". *)
Definition generatePlayerName (saved : option string) (rnd1 rnd2 : Q) : string :=
  match saved_value saved with
  | Some savedName => savedName
  | None =>
      let adj := JSNum.index ADJECTIVES (random_index16 rnd1) in
      let animal := JSNum.index ANIMALS (random_index16 rnd2) in
      default "undefined" adj +:+ default "undefined" animal
  end.

(** The message a position broadcast sends: the caller's fields, the
    manager's player id and the clock at the call. *)
Definition player_move (a : Position) (now : Z) (m : Manager) : Event :=
  ChannelSendPlayerMove
    {| mv_playerId := playerId m;
       mv_x := pos_x a; mv_y := pos_y a; mv_z := pos_z a;
       mv_rotation := pos_rotation a;
       mv_vx := pos_vx a; mv_vz := pos_vz a;
       mv_isMoving := pos_isMoving a; mv_grounded := pos_grounded a;
       mv_timestamp := now |}.

(** The last-activity timestamp with zero counted as missing:
    [lastActive] unless the entry has none or has 0 there, else
    [joinedAt], else 0. *)
Definition last_activity_or_joined (pd : option Presence) : Z :=
  match pd with
  | None => 0
  | Some p =>
      let joined := match p_joinedAt p with Some j => j | None => 0 end in
      match p_lastActive p with
      | None => joined
      | Some t => if decide (t = 0) then joined else t
      end
  end.

End Session.

(** ** Entries at the edge of the staleness rule *)

Module Edge.

Import Multiplayer.

(** A peer that joined a second ago and whose [lastActive] field is 0. *)
Definition zero_active_peer : Presence :=
  mkPresence (Some "p3") (Some "DizzyFrog") (Some "#95e1d3") []
    (Some (Sample.now - 1000)) (Some 0).

End Edge.

(** ** All the callers of the global generator *)

Module RngDraws.

Import Rng RngUse.

(** The nearest double to an exact result written as a fraction over a
    power of two: the numerator is rounded to 53 significant bits.
    (Results in the normal range of doubles.) *)
Definition fl (q : Q) : Q := Qmake (JS.round_double (Qnum q)) (Qden q).

(** [seededRandom() * (max - min) + min] *)
Definition randFloat (min max : Q) (math_random : Q) (st : State) : State * Q :=
  let '(st', r) := getRandom math_random st in
  (st', fl (fl (r * fl (max - min)) + min)).

(** A call into [math.js] that leaves the seed of the global generator
    alone: everything but [setRandomSeed] and [resetRandom]. *)
Inductive Draw :=
| DGetRandom (math_random : Q)
| DRandFloat (min max : Q) (math_random : Q)
| DRandInt (min max : Z) (math_random : Q)
| DChoice (arr : list string) (math_random : Q)
| DCreatePositionRandom (seed x z : Z)
| DPositionCall (g : nat).

(** The state after the call, and the number returned when the call is
    [getRandom]. *)
Definition exec_draw (d : Draw) (st : State) : State * option Q :=
  match d with
  | DGetRandom r => let '(st', v) := getRandom r st in (st', Some v)
  | DRandFloat min max r => (fst (randFloat min max r st), None)
  | DRandInt min max r => (fst (randInt min max r st), None)
  | DChoice arr r => (fst (choice arr r st), None)
  | DCreatePositionRandom seed x z => (fst (createPositionRandom seed x z st), None)
  | DPositionCall g => (fst (call g st), None)
  end.

Fixpoint run_draws (ds : list Draw) (st : State) : State :=
  match ds with
  | [] => st
  | d :: rest => run_draws rest (fst (exec_draw d st))
  end.

(** The numbers returned, in order, by the [getRandom] calls among
    [ds] run from [st]. *)
Fixpoint getRandom_results (ds : list Draw) (st : State) : list Q :=
  match ds with
  | [] => []
  | d :: rest =>
      let '(st', v) := exec_draw d st in
      match v with
      | Some q => q :: getRandom_results rest st'
      | None => getRandom_results rest st'
      end
  end.

(** Whether the call takes a number from the global generator. *)
Definition draws (d : Draw) : bool :=
  match d with
  | DCreatePositionRandom _ _ _ | DPositionCall _ => false
  | _ => true
  end.

(** For each [getRandom] call among [ds], how many calls before it took
    a number from the global generator, counting from [k]. *)
Fixpoint getRandom_positions (k : nat) (ds : list Draw) : list nat :=
  match ds with
  | [] => []
  | DGetRandom _ :: rest => k :: getRandom_positions (S k) rest
  | d :: rest => getRandom_positions (if draws d then S k else k) rest
  end.

End RngDraws.

(** ** Arbitration against a table whose requests can fail *)

Module Faults.

Import Multiplayer.

(** The error of a request that did not get through, or that the store
    refused for a reason of its own. *)
Definition failure : StoreError := mkStoreError "XX000".

(** [run] with failures: [sched] gives, for each request in turn, the
    requests of other peers that reach the table just before it, and
    whether the request itself fails. A failed read answers
    [{ data: null, error }], a failed write changes nothing; a failed
    insert answers with the error (the result of an update is never
    looked at). *)
Fixpoint run_faulty {A : Type} (p : Proc A) (sched : list (list Cmd * bool))
  (s : Store) : A * Store * list Cmd :=
  let '(env, fails) := List.hd ([], false) sched in
  let s1 := apply_cmds env s in
  match p with
  | Ret a => (a, s, [])
  | SelectWorld id k =>
      let resp := if fails then (None, Some failure) else select_single id s1 in
      let '(a, s2, cs) := run_faulty (k resp) (List.tl sched) s1 in
      (a, s2, CSelect id :: cs)
  | UpdateOwner id owner k =>
      let s1' := if fails then s1 else update_owner id owner s1 in
      let '(a, s2, cs) := run_faulty (k tt) (List.tl sched) s1' in
      (a, s2, CUpdateOwner id owner :: cs)
  | InsertWorld id row k =>
      let '(s1', err) := if fails then (s1, Some failure) else insert_world id row s1 in
      let '(a, s2, cs) := run_faulty (k err) (List.tl sched) s1' in
      (a, s2, CInsert id row :: cs)
  end.

(** No request of the arbitration fails. *)
Definition no_failure (sched : list (list Cmd * bool)) : bool :=
  forallb (fun x => negb (snd x)) sched.

End Faults.

(** * Properties *)

(** ** 32-bit arithmetic *)

Section JsArith.

Lemma two32_pow : JS.two32 = 2 ^ 32.
Proof. reflexivity. Qed.

Lemma ToUint32_range n : 0 <= JS.ToUint32 n < 2 ^ 32.
Proof. unfold JS.ToUint32. rewrite two32_pow. apply Z.mod_pos_bound. lia. Qed.

Lemma ToInt32_range n : - 2 ^ 31 <= JS.ToInt32 n < 2 ^ 31.
Proof.
  unfold JS.ToInt32, JS.two31.
  pose proof (ToUint32_range n) as H. unfold JS.ToUint32 in H.
  destruct (Z.ltb_spec (n mod JS.two32) 2147483648); unfold JS.two32 in *; lia.
Qed.

(** A signed reading and the number itself agree modulo 2^32. *)
Lemma ToInt32_mod n : JS.ToInt32 n mod 2 ^ 32 = n mod 2 ^ 32.
Proof.
  unfold JS.ToInt32. rewrite two32_pow.
  destruct (_ <? _).
  - apply Z.mod_mod. lia.
  - rewrite <- (Z.mod_mod n (2 ^ 32)) at 2 by lia.
    rewrite <- (Z.mod_add (n mod 2 ^ 32 - 2 ^ 32) 1 (2 ^ 32)) by lia.
    f_equal. lia.
Qed.

Lemma ToInt32_small n : 0 <= n < 2 ^ 31 -> JS.ToInt32 n = n.
Proof.
  intros H. unfold JS.ToInt32, JS.two32, JS.two31.
  rewrite Z.mod_small by lia.
  destruct (Z.ltb_spec n 2147483648); lia.
Qed.

Lemma lxor_mod_pow2 a b k :
  0 <= k -> Z.lxor a b mod 2 ^ k = Z.lxor (a mod 2 ^ k) (b mod 2 ^ k).
Proof.
  intros Hk. rewrite <- !Z.land_ones by lia.
  apply Z.bits_inj'. intros i Hi.
  rewrite !Z.land_spec, !Z.lxor_spec, !Z.land_spec.
  destruct (Z.testbit a i), (Z.testbit b i), (Z.testbit (Z.ones k) i); reflexivity.
Qed.

Lemma lor_mod_pow2 a b k :
  0 <= k -> Z.lor a b mod 2 ^ k = Z.lor (a mod 2 ^ k) (b mod 2 ^ k).
Proof.
  intros Hk. rewrite <- !Z.land_ones by lia.
  apply Z.bits_inj'. intros i Hi.
  rewrite !Z.land_spec, !Z.lor_spec, !Z.land_spec.
  destruct (Z.testbit a i), (Z.testbit b i), (Z.testbit (Z.ones k) i); reflexivity.
Qed.

Lemma lxor_range a b k :
  0 <= k -> 0 <= a < 2 ^ k -> 0 <= b < 2 ^ k -> 0 <= Z.lxor a b < 2 ^ k.
Proof.
  intros Hk Ha Hb.
  rewrite <- (Z.mod_small a (2 ^ k)), <- (Z.mod_small b (2 ^ k)) by lia.
  rewrite <- lxor_mod_pow2 by lia. apply Z.mod_pos_bound. lia.
Qed.

Lemma xor_mod a b :
  JS.xor a b mod 2 ^ 32 = Z.lxor (a mod 2 ^ 32) (b mod 2 ^ 32).
Proof. unfold JS.xor. rewrite lxor_mod_pow2, !ToInt32_mod by lia. reflexivity. Qed.

Lemma bor_zero_mod a : JS.bor a 0 mod 2 ^ 32 = a mod 2 ^ 32.
Proof.
  unfold JS.bor. rewrite lor_mod_pow2, !ToInt32_mod by lia.
  change (0 mod 2 ^ 32) with 0. now rewrite Z.lor_0_r.
Qed.

Lemma imul_mod a b :
  JS.imul a b mod 2 ^ 32 = ((a mod 2 ^ 32) * (b mod 2 ^ 32)) mod 2 ^ 32.
Proof.
  unfold JS.imul. rewrite ToInt32_mod.
  rewrite Z.mul_mod by lia. rewrite !ToInt32_mod.
  reflexivity.
Qed.

Lemma ushr_zero a : JS.ushr a 0 = a mod 2 ^ 32.
Proof. unfold JS.ushr, JS.ToUint32. change (0 mod 32) with 0. now rewrite Z.shiftr_0_r. Qed.

Lemma ushr_16 a : JS.ushr a 16 = Z.shiftr (a mod 2 ^ 32) 16.
Proof. unfold JS.ushr, JS.ToUint32. rewrite two32_pow. reflexivity. Qed.

Lemma ushr_range a k : 0 <= JS.ushr a k < 2 ^ 32.
Proof.
  unfold JS.ushr. pose proof (ToUint32_range a) as H.
  assert (0 <= k mod 32) as Hk by (apply Z.mod_pos_bound; lia).
  rewrite Z.shiftr_div_pow2 by lia.
  assert (0 < 2 ^ (k mod 32)) by (apply Z.pow_pos_nonneg; lia).
  split.
  - apply Z.div_pos; lia.
  - apply Z.div_lt_upper_bound; nia.
Qed.

End JsArith.

(** ** hashPosition *)

Lemma hashPosition_unfold_steps seed x z :
  hashPosition seed x z
  = JS.ushr (foldl mix (JS.bor seed 0) (hashPosition_steps x z)) 0.
Proof. unfold hashPosition, hashPosition_steps. cbv [foldl mix]. reflexivity. Qed.

Lemma hashPosition_eq_u32 seed x z :
  hashPosition seed x z = hashPosition_u32 seed x z.
Proof.
  unfold hashPosition, hashPosition_u32.
  rewrite ushr_zero, xor_mod.
  set (h2 := JS.imul _ 3266489909).
  assert (Hh2 : h2 mod 2 ^ 32
    = (Z.lxor ((Z.lxor (seed mod 2 ^ 32) (x mod 2 ^ 32) * 2246822507) mod 2 ^ 32)
              (z mod 2 ^ 32) * 3266489909) mod 2 ^ 32).
  { subst h2. rewrite imul_mod, xor_mod, imul_mod, xor_mod, !bor_zero_mod.
    reflexivity. }
  rewrite (Z.mod_small (JS.ushr h2 16)) by apply ushr_range.
  rewrite ushr_16, Hh2. reflexivity.
Qed.

Lemma hashPosition_range seed x z : 0 <= hashPosition seed x z < 2 ^ 32.
Proof. unfold hashPosition. apply ushr_range. Qed.

(** C9, as amended. For all integers [seed], [x], [z], [hashPosition]
    runs two xor-then-multiply rounds, with the odd constants
    0x85ebca6b and 0xc2b2ae35, followed by one xor-shift round
    ([h ^= h >>> 16]); the result is what unsigned 32-bit arithmetic
    with wrap-around gives for those steps and lies in [0, 2^32). *)
Theorem hashPosition_mixing seed x z :
  hashPosition seed x z
  = JS.ushr (foldl mix (JS.bor seed 0) (hashPosition_steps x z)) 0
  /\ multiplicative_constants (hashPosition_steps x z) = [2246822507; 3266489909]
  /\ Z.odd 2246822507 = true /\ Z.odd 3266489909 = true
  /\ xor_shift_rounds (hashPosition_steps x z) = 1%nat
  /\ hashPosition seed x z = hashPosition_u32 seed x z
  /\ 0 <= hashPosition seed x z < 2 ^ 32.
Proof.
  split; [apply hashPosition_unfold_steps|].
  split; [reflexivity|].
  split; [reflexivity|].
  split; [reflexivity|].
  split; [reflexivity|].
  split; [apply hashPosition_eq_u32 | apply hashPosition_range].
Qed.

(** C9 as stated asks for two rounds of xor-shift mixing: the function
    has one. *)
Lemma hashPosition_not_two_xor_shift_rounds :
  hashPosition 12345 1000 2000
  = JS.ushr (foldl mix (JS.bor 12345 0) (hashPosition_steps 1000 2000)) 0
  /\ xor_shift_rounds (hashPosition_steps 1000 2000) <> 2%nat.
Proof.
  split; [apply hashPosition_unfold_steps|].
  unfold xor_shift_rounds, hashPosition_steps. simpl. lia.
Qed.

(** ** The generators handed out by createPositionRandom *)

Section PositionRandom.

Import Rng.

Local Arguments mulberry32_step : simpl never.
Local Arguments hashPosition : simpl never.

Lemma mulberry32_step_state h k :
  fst (mulberry32_step (mulberry32_state h k)) = mulberry32_state h (S k).
Proof. reflexivity. Qed.

(** Only a call of [g] itself touches the seed captured by [g]. *)
Lemma exec_other_keeps_cell o st g s :
  closures st !! g = Some s ->
  is_call g o = false ->
  closures (fst (exec o st)) !! g = Some s.
Proof.
  intros Hg Ho. destruct o as [sd x z | g' | sd | | r]; simpl.
  - rewrite lookup_app_l; [exact Hg | eapply lookup_lt_Some; exact Hg].
  - simpl in Ho. apply bool_decide_eq_false in Ho.
    unfold call. destruct (closures st !! g') as [s'|] eqn:Hg'; [|exact Hg].
    destruct (mulberry32_step s') as [s'' v]. simpl.
    rewrite list_lookup_insert_ne by exact Ho. exact Hg.
  - exact Hg.
  - exact Hg.
  - unfold getRandom. destruct (seededRandom st) as [|c]; [exact Hg|].
    destruct (mulberry32_step c). exact Hg.
Qed.

Lemma exec_call_cell g st s :
  closures st !! g = Some s ->
  exec (OpCall g) st
  = ({| seededRandom := seededRandom st;
        globalWorldSeed := globalWorldSeed st;
        closures := <[g := fst (mulberry32_step s)]> (closures st) |},
     RNumber (snd (mulberry32_step s))).
Proof.
  intros Hg. unfold exec, call. rewrite Hg.
  destruct (mulberry32_step s); reflexivity.
Qed.

(** A generator whose captured seed has reached [mulberry32_state h k]
    answers its next calls with outputs number [k], [k+1], ... of the
    stream seeded with [h], whatever else runs in between. *)
Lemma outputs_of_stream ops : forall g st h k,
  closures st !! g = Some (mulberry32_state h k) ->
  outputs_of g ops st
  = (fun n => mulberry32_output h (k + n)) <$> seq 0 (calls g ops).
Proof.
  induction ops as [|o ops IH]; intros g st h k Hg; [reflexivity|].
  destruct (is_call g o) eqn:Ho.
  - destruct o as [| g' | | |]; try discriminate.
    simpl in Ho. apply bool_decide_eq_true in Ho. subst g'.
    unfold calls. cbn [List.filter is_call]. rewrite bool_decide_eq_true_2 by reflexivity.
    cbn [length seq fmap list_fmap].
    cbn [outputs_of]. rewrite (exec_call_cell _ _ _ Hg).
    rewrite decide_True by reflexivity.
    rewrite Nat.add_0_r. f_equal.
    rewrite (IH g _ h (S k)).
    + fold (calls g ops). rewrite <- seq_shift, <- list_fmap_compose.
      apply list_fmap_ext. intros _ n _. simpl. f_equal. lia.
    + simpl. rewrite list_lookup_insert_eq by (eapply lookup_lt_Some; exact Hg).
      reflexivity.
  - assert (Hk : closures (fst (exec o st)) !! g = Some (mulberry32_state h k))
      by (apply exec_other_keeps_cell; assumption).
    unfold calls. cbn [List.filter]. rewrite Ho. fold (calls g ops).
    cbn [outputs_of]. destruct (exec o st) as [st' r]. simpl in Hk.
    destruct o as [| g' | | |]; try (apply IH; exact Hk).
    simpl in Ho. apply bool_decide_eq_false in Ho.
    destruct r; try (apply IH; exact Hk).
    rewrite decide_False by exact Ho. apply IH; exact Hk.
Qed.

Lemma createPositionRandom_cell seed x z st :
  closures (fst (createPositionRandom seed x z st))
    !! snd (createPositionRandom seed x z st)
  = Some (mulberry32_state (hashPosition seed x z) 0).
Proof.
  simpl. rewrite lookup_app_r by lia. now rewrite Nat.sub_diag.
Qed.

Lemma createPositionRandom_outputs seed x z st ops :
  outputs_of (snd (createPositionRandom seed x z st)) ops
             (fst (createPositionRandom seed x z st))
  = position_stream seed x z
      <$> seq 0 (calls (snd (createPositionRandom seed x z st)) ops).
Proof.
  rewrite (outputs_of_stream ops _ _ _ 0%nat (createPositionRandom_cell seed x z st)).
  reflexivity.
Qed.

(** C1. Two invocations of [createPositionRandom(seed, x, z)], made in
    any two module states [st1] and [st2] (whatever was created, called
    or reseeded before) and followed by any operations [ops1] and
    [ops2] (other generators created and called, the global generator
    reseeded, reset or drawn from), return generators whose outputs are
    the same sequence: each generator answers every one of its calls,
    and call number [n] of either returns [position_stream seed x z n]. *)
Theorem createPositionRandom_deterministic seed x z st1 st2 ops1 ops2 n o1 o2 :
  let g1 := snd (createPositionRandom seed x z st1) in
  let g2 := snd (createPositionRandom seed x z st2) in
  let out1 := outputs_of g1 ops1 (fst (createPositionRandom seed x z st1)) in
  let out2 := outputs_of g2 ops2 (fst (createPositionRandom seed x z st2)) in
  out1 !! n = Some o1 ->
  out2 !! n = Some o2 ->
  length out1 = calls g1 ops1 /\ length out2 = calls g2 ops2 /\
  o1 = o2 /\ o1 = position_stream seed x z n.
Proof.
  intros g1 g2 out1 out2 H1 H2. subst out1 out2 g1 g2.
  rewrite createPositionRandom_outputs in H1 |- *.
  rewrite createPositionRandom_outputs in H2 |- *.
  rewrite !length_fmap, !length_seq.
  apply list_lookup_fmap_Some in H1 as (i1 & -> & Hi1).
  apply list_lookup_fmap_Some in H2 as (i2 & -> & Hi2).
  apply lookup_seq in Hi1 as [-> _]. apply lookup_seq in Hi2 as [-> _].
  auto.
Qed.

Lemma createPositionRandom_deterministic_witness :
  Rng.outputs_of 0
    [OpCall 0; OpCreatePositionRandom 1 2 3; OpCall 1; OpCall 0]
    (fst (createPositionRandom 12345 1000 2000 initial)) !! 1%nat
  = Some (Qmake 2787244790 4294967296)
  /\ Rng.outputs_of 1
    [OpGetRandom (1 # 2); OpCall 0; OpCall 1; OpResetRandom; OpCall 1]
    (fst (createPositionRandom 12345 1000 2000
            (setRandomSeed 7 (fst (createPositionRandom 5 5 5 initial))))) !! 1%nat
  = Some (Qmake 2787244790 4294967296)
  /\ Qmake 2787244790 4294967296 = position_stream 12345 1000 2000 1.
Proof.
  assert (H1 : Rng.outputs_of 0
    [OpCall 0; OpCreatePositionRandom 1 2 3; OpCall 1; OpCall 0]
    (fst (createPositionRandom 12345 1000 2000 initial)) !! 1%nat
    = Some (Qmake 2787244790 4294967296)) by (vm_compute; reflexivity).
  assert (H2 : Rng.outputs_of 1
    [OpGetRandom (1 # 2); OpCall 0; OpCall 1; OpResetRandom; OpCall 1]
    (fst (createPositionRandom 12345 1000 2000
            (setRandomSeed 7 (fst (createPositionRandom 5 5 5 initial))))) !! 1%nat
    = Some (Qmake 2787244790 4294967296)) by (vm_compute; reflexivity).
  split; [exact H1 | split; [exact H2 |]].
  exact (proj2 (proj2 (proj2
    (createPositionRandom_deterministic 12345 1000 2000
       initial (setRandomSeed 7 (fst (createPositionRandom 5 5 5 initial)))
       [OpCall 0; OpCreatePositionRandom 1 2 3; OpCall 1; OpCall 0]
       [OpGetRandom (1 # 2); OpCall 0; OpCall 1; OpResetRandom; OpCall 1]
       1%nat _ _ H1 H2)))).
Defined.

End PositionRandom.

(** ** The injected client *)

Section Client.

Import Multiplayer.

Lemma client_after_snoc calls c : client_after (calls ++ [c]) = c.
Proof. unfold client_after. rewrite foldl_app. reflexivity. Qed.

Lemma client_after_falsy calls :
  Forall (fun c => client_truthy c = false) calls ->
  client_truthy (client_after calls) = false.
Proof.
  induction calls as [|c calls IH] using rev_ind; intros H; [reflexivity|].
  rewrite client_after_snoc.
  apply Forall_app in H as [_ H]. now inversion H.
Qed.

Lemma createMultiplayerManager_falsy worldId cur :
  client_truthy cur = false ->
  createMultiplayerManager worldId cur = inl ErrorClientNotSet.
Proof. intros H. unfold createMultiplayerManager. now rewrite H. Qed.

(** C10. As long as every [setSupabaseClient] call so far passed null
    (or undefined), [createMultiplayerManager] throws and returns no
    manager; once the latest call has passed a client, it returns a
    manager bound to that client and does not throw. *)
Theorem createMultiplayerManager_needs_client worldId :
  (forall calls,
      Forall (fun c => client_truthy c = false) calls ->
      createMultiplayerManager worldId (client_after calls) = inl ErrorClientNotSet)
  /\ (forall calls c,
      createMultiplayerManager worldId (client_after (calls ++ [JsClient c]))
      = inr (new_manager c (default "portal" worldId))).
Proof.
  split.
  - intros calls H. apply createMultiplayerManager_falsy, client_after_falsy, H.
  - intros calls c. rewrite client_after_snoc. reflexivity.
Qed.

Lemma createMultiplayerManager_needs_client_witness :
  Forall (fun c => client_truthy c = false) [JsNull; JsUndefined]
  /\ createMultiplayerManager (Some "my-game-room") (client_after [JsNull; JsUndefined])
     = inl ErrorClientNotSet
  /\ createMultiplayerManager (Some "my-game-room")
       (client_after ([JsNull] ++ [JsClient (mkClient "https://db.example")]))
     = inr (new_manager (mkClient "https://db.example") "my-game-room").
Proof.
  assert (H : Forall (fun c => client_truthy c = false) [JsNull; JsUndefined])
    by (repeat constructor).
  split; [exact H|]. split.
  - exact (proj1 (createMultiplayerManager_needs_client (Some "my-game-room")) _ H).
  - exact (proj2 (createMultiplayerManager_needs_client (Some "my-game-room")) [JsNull] _).
Defined.

End Client.

(** ** Throttled position broadcast *)

Section Broadcast.

Import Multiplayer.

Lemma broadcastPosition_dropped a now m :
  now - lastBroadcastTime m < BROADCAST_THROTTLE_MS ->
  broadcastPosition a now m = (m, []).
Proof.
  intros H. unfold broadcastPosition. destruct (channel m); [|reflexivity].
  destruct (Z.ltb_spec (now - lastBroadcastTime m) BROADCAST_THROTTLE_MS); [reflexivity | lia].
Qed.

Lemma broadcastPosition_sent a now m :
  channel m <> None ->
  BROADCAST_THROTTLE_MS <= now - lastBroadcastTime m ->
  exists payload,
    broadcastPosition a now m
    = (set_lastBroadcastTime now m, [ChannelSendPlayerMove payload])
    /\ mv_timestamp payload = now.
Proof.
  intros Hc H. unfold broadcastPosition. destruct (channel m); [|congruence].
  destruct (Z.ltb_spec (now - lastBroadcastTime m) BROADCAST_THROTTLE_MS); [lia|].
  eexists. split; reflexivity.
Qed.

Lemma broadcastPosition_sent_move a now m :
  channel m <> None ->
  BROADCAST_THROTTLE_MS <= now - lastBroadcastTime m ->
  broadcastPosition a now m
  = (set_lastBroadcastTime now m, [Session.player_move a now m]).
Proof.
  intros Hc H. unfold broadcastPosition, Session.player_move.
  destruct (channel m); [|congruence].
  destruct (Z.ltb_spec (now - lastBroadcastTime m) BROADCAST_THROTTLE_MS); [lia|].
  reflexivity.
Qed.

(** C4. With the channel open and a first call at [t1] that is sent,
    a second call at [t2]: less than 50 ms after [t1] it is dropped
    (nothing is sent or kept for later, the manager is unchanged), so
    all the two calls do is one transport send, the position message
    of the first call stamped [t1]; 50 ms or more after [t1] it is
    sent too, so all they do is two transport sends, the position
    messages of the first and of the second call, stamped [t1] and
    [t2], in this order. *)
Theorem broadcastPosition_throttle m a1 a2 t1 t2 :
  channel m <> None ->
  BROADCAST_THROTTLE_MS <= t1 - lastBroadcastTime m ->
  let r1 := broadcastPosition a1 t1 m in
  let r2 := broadcastPosition a2 t2 (fst r1) in
  (t2 - t1 < 50 ->
     snd r1 ++ snd r2 = [Session.player_move a1 t1 m]
     /\ Session.send_times (snd r1 ++ snd r2) = [t1]
     /\ snd r2 = [] /\ fst r2 = fst r1)
  /\ (50 <= t2 - t1 ->
     snd r1 ++ snd r2 = [Session.player_move a1 t1 m; Session.player_move a2 t2 m]
     /\ Session.send_times (snd r1 ++ snd r2) = [t1; t2]
     /\ lastBroadcastTime (fst r2) = t2).
Proof.
  intros Hc H1 r1 r2. subst r2 r1.
  rewrite (broadcastPosition_sent_move a1 t1 m Hc H1).
  cbn [fst snd]. split; intros H2.
  - rewrite broadcastPosition_dropped by (simpl; exact H2).
    repeat split; reflexivity.
  - rewrite (broadcastPosition_sent_move a2 t2 (set_lastBroadcastTime t1 m))
      by (simpl; assumption).
    repeat split; reflexivity.
Qed.

Lemma broadcastPosition_throttle_witness :
  channel (set_channel (Some "game_room_portal")
             (new_manager (mkClient "https://db.example") "portal")) <> None
  /\ BROADCAST_THROTTLE_MS
     <= 1700000000000
        - lastBroadcastTime (set_channel (Some "game_room_portal")
                               (new_manager (mkClient "https://db.example") "portal"))
  /\ Session.send_times
       (snd (broadcastPosition (mkPosition 0 0 0 0 0 0 true true) 1700000000000
               (set_channel (Some "game_room_portal")
                  (new_manager (mkClient "https://db.example") "portal")))
        ++ snd (broadcastPosition (mkPosition 1 0 0 0 0 0 true true) 1700000000049
                  (fst (broadcastPosition (mkPosition 0 0 0 0 0 0 true true)
                          1700000000000
                          (set_channel (Some "game_room_portal")
                             (new_manager (mkClient "https://db.example") "portal"))))))
     = [1700000000000]
  /\ snd (broadcastPosition (mkPosition 0 0 0 0 0 0 true true) 1700000000000
            (set_channel (Some "game_room_portal")
               (new_manager (mkClient "https://db.example") "portal")))
     ++ snd (broadcastPosition (mkPosition 1 0 0 0 0 0 true true) 1700000000050
               (fst (broadcastPosition (mkPosition 0 0 0 0 0 0 true true)
                       1700000000000
                       (set_channel (Some "game_room_portal")
                          (new_manager (mkClient "https://db.example") "portal")))))
     = [ChannelSendPlayerMove (mkMove None 0 0 0 0 0 0 true true 1700000000000);
        ChannelSendPlayerMove (mkMove None 1 0 0 0 0 0 true true 1700000000050)].
Proof.
  set (m := set_channel (Some "game_room_portal")
              (new_manager (mkClient "https://db.example") "portal")).
  assert (Hc : channel m <> None) by discriminate.
  assert (H1 : BROADCAST_THROTTLE_MS <= 1700000000000 - lastBroadcastTime m)
    by (vm_compute; discriminate).
  split; [exact Hc|]. split; [exact H1|]. split.
  - exact (proj1 (proj2 (proj1 (broadcastPosition_throttle m _ _ 1700000000000 1700000000049
                                   Hc H1) ltac:(lia)))).
  - exact (proj1 (proj2 (broadcastPosition_throttle m _ _ 1700000000000 1700000000050 Hc H1)
                    ltac:(lia))).
Defined.

End Broadcast.

(** ** Presence handlers *)

Section PresenceHandlers.

Import Multiplayer.

Lemma calls_for_app pid evs1 evs2 :
  calls_for pid (evs1 ++ evs2) = calls_for pid evs1 ++ calls_for pid evs2.
Proof. unfold calls_for. apply filter_app. Qed.

(** The two handlers compute the same last-activity timestamp. *)
Lemma join_lastActive_sync pd : join_lastActive pd = sync_lastActive pd.
Proof. reflexivity. Qed.

(** It is the timestamp read off the fields whenever a [lastActive]
    that is present is a real clock value (not 0). *)
Lemma sync_lastActive_last_activity pd :
  pd ≫= p_lastActive <> Some 0 ->
  sync_lastActive pd = last_activity pd.
Proof.
  unfold sync_lastActive, last_activity, num_or. intros H.
  destruct (pd ≫= p_lastActive) as [v|].
  - destruct (Z.eqb_spec v 0); [congruence | reflexivity].
  - destruct (pd ≫= p_joinedAt) as [j|]; [|reflexivity].
    simpl. destruct (Z.eqb_spec j 0); congruence.
Qed.

(** What one iteration of the sync loop can change. *)
Lemma sync_one_frame now state pid m :
  playerId (fst (sync_one now state pid m)) = playerId m
  /\ onPlayerJoin (fst (sync_one now state pid m)) = onPlayerJoin m
  /\ onPlayerPresenceUpdate (fst (sync_one now state pid m)) = onPlayerPresenceUpdate m
  /\ (forall q, q <> pid ->
        (q ∈ spawnedPlayers (fst (sync_one now state pid m)) <-> q ∈ spawnedPlayers m))
  /\ (forall q, q ∈ spawnedPlayers m -> q ∈ spawnedPlayers (fst (sync_one now state pid m)))
  /\ (forall q, q <> pid -> calls_for q (snd (sync_one now state pid m)) = []).
Proof.
  unfold sync_one.
  destruct (bool_decide (playerId m = Some pid)); [simpl; tauto|].
  destruct (STALE_THRESHOLD <? _); [simpl; tauto|].
  destruct (bool_decide (pid ∈ spawnedPlayers m)) eqn:Hsp; simpl.
  - destruct (onPlayerPresenceUpdate m) eqn:Hu; simpl; rewrite ?Hu;
      repeat split; auto; intros q Hq; unfold calls_for.
    rewrite filter_cons_False; [reflexivity | simpl; congruence].
  - do 3 (split; [reflexivity|]).
    split; [intros q Hq; rewrite elem_of_union, elem_of_singleton; tauto|].
    split; [intros q Hq; apply elem_of_union_r; exact Hq|].
    intros q Hq. destruct (onPlayerJoin m); [|reflexivity].
    unfold calls_for. rewrite filter_cons_False; [reflexivity | simpl; congruence].
Qed.

Lemma sync_one_stale now state pid m :
  STALE_THRESHOLD < now - sync_lastActive (first_presence state pid) ->
  sync_one now state pid m = (m, []).
Proof.
  intros H. unfold sync_one.
  destruct (bool_decide _); [reflexivity|].
  destruct (Z.ltb_spec STALE_THRESHOLD (now - sync_lastActive (first_presence state pid)));
    [reflexivity | lia].
Qed.

Lemma sync_one_known now state pid m :
  playerId m <> Some pid ->
  pid ∈ spawnedPlayers m ->
  now - sync_lastActive (first_presence state pid) <= STALE_THRESHOLD ->
  sync_one now state pid m
  = (m, if onPlayerPresenceUpdate m
        then [CallOnPlayerPresenceUpdate pid (first_presence state pid)] else []).
Proof.
  intros Hown Hsp Hfresh. unfold sync_one.
  rewrite bool_decide_eq_false_2 by exact Hown.
  destruct (Z.ltb_spec STALE_THRESHOLD (now - sync_lastActive (first_presence state pid)));
    [lia|].
  rewrite bool_decide_eq_true_2 by exact Hsp. simpl.
  destruct (onPlayerPresenceUpdate m); reflexivity.
Qed.

Lemma sync_loop_cons now state pid rest m :
  sync_loop now state (pid :: rest) m
  = (fst (sync_loop now state rest (fst (sync_one now state pid m))),
     snd (sync_one now state pid m)
     ++ snd (sync_loop now state rest (fst (sync_one now state pid m)))).
Proof.
  simpl. destruct (sync_one now state pid m) as [m1 e1].
  simpl. destruct (sync_loop now state rest m1); reflexivity.
Qed.

Lemma sync_loop_app now state l1 : forall l2 m,
  sync_loop now state (l1 ++ l2) m
  = (fst (sync_loop now state l2 (fst (sync_loop now state l1 m))),
     snd (sync_loop now state l1 m)
     ++ snd (sync_loop now state l2 (fst (sync_loop now state l1 m)))).
Proof.
  induction l1 as [|pid l1 IH]; intros l2 m.
  - simpl. destruct (sync_loop now state l2 m); reflexivity.
  - rewrite <- app_comm_cons, !sync_loop_cons, IH. simpl.
    now rewrite app_assoc.
Qed.

(** Iterations for other peers leave peer [q] alone. *)
Lemma sync_loop_frame now state l : forall m q,
  q ∉ l ->
  playerId (fst (sync_loop now state l m)) = playerId m
  /\ onPlayerPresenceUpdate (fst (sync_loop now state l m)) = onPlayerPresenceUpdate m
  /\ (q ∈ spawnedPlayers (fst (sync_loop now state l m)) <-> q ∈ spawnedPlayers m)
  /\ calls_for q (snd (sync_loop now state l m)) = [].
Proof.
  induction l as [|pid l IH]; intros m q Hq; [simpl; tauto|].
  apply not_elem_of_cons in Hq as [Hne Hq].
  rewrite sync_loop_cons. cbn [fst snd].
  destruct (sync_one_frame now state pid m) as (Hp & _ & Hu & Hs & _ & Hc).
  destruct (IH (fst (sync_one now state pid m)) q Hq) as (Hp' & Hu' & Hs' & Hc').
  rewrite Hp', Hu', Hs', calls_for_app, Hc', (Hc q Hne), (Hs q Hne), Hp, Hu.
  tauto.
Qed.

(** A stale entry is passed over wherever it stands in the roster. *)
Lemma sync_loop_stale now state q l : forall m,
  STALE_THRESHOLD < now - sync_lastActive (first_presence state q) ->
  (q ∈ spawnedPlayers (fst (sync_loop now state l m)) <-> q ∈ spawnedPlayers m)
  /\ calls_for q (snd (sync_loop now state l m)) = [].
Proof.
  induction l as [|pid l IH]; intros m Hst; [simpl; tauto|].
  rewrite sync_loop_cons. cbn [fst snd].
  destruct (IH (fst (sync_one now state pid m)) Hst) as (Hs' & Hc').
  rewrite Hs', calls_for_app, Hc'.
  destruct (decide (pid = q)) as [->|Hne].
  - rewrite sync_one_stale by exact Hst. simpl. tauto.
  - destruct (sync_one_frame now state pid m) as (_ & _ & _ & Hs & _ & Hc).
    rewrite (Hc q) by congruence. rewrite (Hs q) by congruence. tauto.
Qed.

Lemma on_presence_join_stale key newPresences now m :
  300000 < now - join_lastActive (head newPresences) ->
  on_presence_join key newPresences now m = (m, []).
Proof.
  intros H. unfold on_presence_join.
  destruct (_ && _); [|reflexivity].
  destruct (Z.ltb_spec 300000 (now - join_lastActive (head newPresences)));
    [reflexivity | lia].
Qed.

(** The same exclusion with the timestamp read off the fields, for an
    entry whose [lastActive], when present, is a real clock value. *)
Lemma stale_entry_by_fields state now m pid :
  first_presence state pid ≫= p_lastActive <> Some 0 ->
  STALE_THRESHOLD < now - last_activity (first_presence state pid) ->
  (pid ∈ spawnedPlayers (fst (on_presence_sync state now m))
     <-> pid ∈ spawnedPlayers m)
  /\ calls_for pid (snd (on_presence_sync state now m)) = [].
Proof.
  intros Hnz Hst. rewrite <- sync_lastActive_last_activity in Hst by exact Hnz.
  apply sync_loop_stale, Hst.
Qed.

(** The timestamp both handlers compare is [lastActive] with 0 counted
    as missing, falling back to [joinedAt]. *)
Lemma sync_lastActive_or_joined pd :
  sync_lastActive pd = Session.last_activity_or_joined pd.
Proof.
  destruct pd as [[pid nm col acc j a]|]; [|reflexivity].
  unfold sync_lastActive, Session.last_activity_or_joined, num_or. simpl.
  destruct a as [t|].
  - destruct (Z.eqb_spec t 0) as [E|E]; destruct (decide (t = 0)); try congruence.
    destruct j as [v|]; [|reflexivity].
    destruct (Z.eqb_spec v 0); congruence.
  - destruct j as [v|]; [|reflexivity].
    destruct (Z.eqb_spec v 0); congruence.
Qed.

(** C5. An entry whose last-activity timestamp ([lastActive], or
    [joinedAt] when [lastActive] is missing or 0) lies more than
    300,000 ms before [now] is passed over by the sync handler: the
    peer is in the spawned set afterwards only if it was before, and no
    callback is invoked for it, the join callback in particular. The
    join handler, given such an entry, changes nothing and invokes
    nothing. *)
Theorem stale_entry_is_excluded state now m pid newPresences :
  (STALE_THRESHOLD
     < now - Session.last_activity_or_joined (first_presence state pid) ->
     (pid ∈ spawnedPlayers (fst (on_presence_sync state now m))
        <-> pid ∈ spawnedPlayers m)
     /\ calls_for pid (snd (on_presence_sync state now m)) = []
     /\ forall pd, CallOnPlayerJoin pid pd ∉ snd (on_presence_sync state now m))
  /\ (300000 < now - Session.last_activity_or_joined (head newPresences) ->
     on_presence_join pid newPresences now m = (m, [])).
Proof.
  split.
  - intros Hst. rewrite <- sync_lastActive_or_joined in Hst.
    unfold on_presence_sync.
    destruct (sync_loop_stale now state pid (keys state) m Hst) as [Hs Hc].
    split; [exact Hs|]. split; [exact Hc|].
    intros pd Hin.
    assert (Hin' : CallOnPlayerJoin pid pd ∈ calls_for pid (snd (sync_loop now state (keys state) m))).
    { unfold calls_for. apply list_elem_of_filter. split; [reflexivity | exact Hin]. }
    rewrite Hc in Hin'. inversion Hin'.
  - intros Hst. rewrite <- sync_lastActive_or_joined, <- join_lastActive_sync in Hst.
    apply on_presence_join_stale, Hst.
Qed.

(** With the timestamp read as [lastActive] whenever the entry has the
    field, the exclusion fails: an entry that joined a second ago and
    carries [lastActive: 0] has a last activity more than 300,000 ms
    old on that reading, yet the sync handler and the join handler both
    spawn the peer and invoke the join callback for it. *)
Lemma zero_lastActive_entry_is_spawned :
  STALE_THRESHOLD
    < Sample.now - last_activity (first_presence [("p3", [Edge.zero_active_peer])] "p3")
  /\ ("p3" ∉ spawnedPlayers Sample.joined)
  /\ "p3" ∈ spawnedPlayers
              (fst (on_presence_sync [("p3", [Edge.zero_active_peer])] Sample.now
                      Sample.joined))
  /\ snd (on_presence_sync [("p3", [Edge.zero_active_peer])] Sample.now Sample.joined)
     = [CallOnPlayerJoin "p3" (Some Edge.zero_active_peer)]
  /\ 300000 < Sample.now - last_activity (head [Edge.zero_active_peer])
  /\ "p3" ∈ spawnedPlayers
              (fst (on_presence_join "p3" [Edge.zero_active_peer] Sample.now
                      Sample.joined))
  /\ snd (on_presence_join "p3" [Edge.zero_active_peer] Sample.now Sample.joined)
     = [CallOnPlayerJoin "p3" (Some Edge.zero_active_peer)].
Proof.
  split; [vm_compute; reflexivity|].
  split; [apply (bool_decide_unpack _); vm_compute; exact I|].
  split; [apply (bool_decide_unpack _); vm_compute; exact I|].
  split; [vm_compute; reflexivity|].
  split; [vm_compute; reflexivity|].
  split; [apply (bool_decide_unpack _); vm_compute; exact I|].
  vm_compute; reflexivity.
Qed.

(** C7. A sync that reports a peer already in the spawned set, with a
    fresh entry, makes exactly one invocation for that peer: the
    presence-update callback with the reported entry (if the game has
    set one; otherwise none at all). The join callback is not invoked
    for it and the peer stays in the spawned set. *)
Theorem known_peer_is_updated_not_rejoined state now m pid :
  NoDup (keys state) ->
  pid ∈ keys state ->
  playerId m <> Some pid ->
  pid ∈ spawnedPlayers m ->
  now - sync_lastActive (first_presence state pid) <= STALE_THRESHOLD ->
  calls_for pid (snd (on_presence_sync state now m))
  = (if onPlayerPresenceUpdate m
     then [CallOnPlayerPresenceUpdate pid (first_presence state pid)] else [])
  /\ pid ∈ spawnedPlayers (fst (on_presence_sync state now m)).
Proof.
  intros Hnd Hin Hown Hsp Hfresh. unfold on_presence_sync.
  apply list_elem_of_split in Hin as (l1 & l2 & Hk). rewrite Hk in *.
  apply NoDup_app in Hnd as (_ & Hl1 & Hnd).
  apply NoDup_cons in Hnd as (Hl2 & _).
  assert (Hq1 : pid ∉ l1) by (intros H; apply (Hl1 pid H); left).
  rewrite sync_loop_app, sync_loop_cons. cbn [fst snd].
  destruct (sync_loop_frame now state l1 m pid Hq1) as (Hp1 & Hu1 & Hs1 & Hc1).
  set (m1 := fst (sync_loop now state l1 m)) in *.
  assert (Hone : sync_one now state pid m1
    = (m1, if onPlayerPresenceUpdate m1
           then [CallOnPlayerPresenceUpdate pid (first_presence state pid)] else [])).
  { apply sync_one_known; [rewrite Hp1; exact Hown | apply Hs1; exact Hsp | exact Hfresh]. }
  rewrite Hone. cbn [fst snd].
  destruct (sync_loop_frame now state l2 m1 pid Hl2) as (_ & _ & Hs2 & Hc2).
  rewrite !calls_for_app, Hc1, Hc2, Hu1, app_nil_r. cbn [app].
  split.
  - destruct (onPlayerPresenceUpdate m); [|reflexivity].
    unfold calls_for. rewrite filter_cons_True by reflexivity. reflexivity.
  - apply Hs2, Hs1, Hsp.
Qed.

Lemma stale_entry_is_excluded_witness :
  STALE_THRESHOLD
    < Sample.now
      - Session.last_activity_or_joined (first_presence [("p1", [Sample.stale_peer])] "p1")
  /\ calls_for "p1"
       (snd (on_presence_sync [("p1", [Sample.stale_peer])] Sample.now Sample.joined))
     = []
  /\ 300000 < Sample.now - Session.last_activity_or_joined (head [Sample.stale_peer])
  /\ on_presence_join "p1" [Sample.stale_peer] Sample.now Sample.joined
     = (Sample.joined, []).
Proof.
  assert (H1 : STALE_THRESHOLD
    < Sample.now
      - Session.last_activity_or_joined (first_presence [("p1", [Sample.stale_peer])] "p1"))
    by (vm_compute; reflexivity).
  assert (H2 : 300000
    < Sample.now - Session.last_activity_or_joined (head [Sample.stale_peer]))
    by (vm_compute; reflexivity).
  split; [exact H1|]. split.
  - exact (proj1 (proj2 (proj1
      (stale_entry_is_excluded [("p1", [Sample.stale_peer])] Sample.now Sample.joined
         "p1" [Sample.stale_peer]) H1))).
  - split; [exact H2|].
    exact (proj2
      (stale_entry_is_excluded [("p1", [Sample.stale_peer])] Sample.now Sample.joined
         "p1" [Sample.stale_peer]) H2).
Defined.

Lemma known_peer_is_updated_not_rejoined_witness :
  NoDup (keys [("p2", [Sample.fresh_peer])])
  /\ "p2" ∈ keys [("p2", [Sample.fresh_peer])]
  /\ playerId (set_spawnedPlayers {["p2"]} Sample.joined) <> Some "p2"
  /\ "p2" ∈ spawnedPlayers (set_spawnedPlayers {["p2"]} Sample.joined)
  /\ Sample.now - sync_lastActive (first_presence [("p2", [Sample.fresh_peer])] "p2")
     <= STALE_THRESHOLD
  /\ calls_for "p2"
       (snd (on_presence_sync [("p2", [Sample.fresh_peer])] Sample.now
               (set_spawnedPlayers {["p2"]} Sample.joined)))
     = [CallOnPlayerPresenceUpdate "p2" (Some Sample.fresh_peer)].
Proof.
  assert (H1 : NoDup (keys [("p2", [Sample.fresh_peer])]))
    by apply NoDup_singleton.
  assert (H2 : "p2" ∈ keys [("p2", [Sample.fresh_peer])])
    by apply list_elem_of_here.
  assert (H3 : playerId (set_spawnedPlayers {["p2"]} Sample.joined) <> Some "p2")
    by discriminate.
  assert (H4 : "p2" ∈ spawnedPlayers (set_spawnedPlayers {["p2"]} Sample.joined))
    by (unfold set_spawnedPlayers; cbn [spawnedPlayers];
        apply elem_of_singleton_2; reflexivity).
  assert (H5 : Sample.now
               - sync_lastActive (first_presence [("p2", [Sample.fresh_peer])] "p2")
               <= STALE_THRESHOLD)
    by (vm_compute; discriminate).
  do 5 (split; [assumption|]).
  exact (proj1 (known_peer_is_updated_not_rejoined
                  [("p2", [Sample.fresh_peer])] Sample.now
                  (set_spawnedPlayers {["p2"]} Sample.joined) "p2" H1 H2 H3 H4 H5)).
Defined.

End PresenceHandlers.

(** ** Products of a double with an integer *)

Section DoubleProducts.

(** Rounding to the nearest double moves an integer by at most half a
    unit in the last place: a relative error of at most 2^-53. *)
Lemma round_double_pos_near n :
  0 <= n -> Z.abs (JS.round_double_pos n - n) * 2 ^ 53 <= n.
Proof.
  intros H0. unfold JS.round_double_pos.
  destruct (Z.ltb_spec n (2 ^ 53)) as [Hs|Hn];
    [rewrite Z.sub_diag; simpl; exact H0|].
  assert (Hlog : 53 <= Z.log2 n) by (apply Z.log2_le_pow2; lia).
  pose proof (Z.log2_spec n ltac:(lia)) as [Hlo _].
  set (e := Z.log2 n - 52).
  assert (He : 2 ^ e = 2 * 2 ^ (e - 1)).
  { replace e with (Z.succ (e - 1)) at 1 by lia. apply Z.pow_succ_r. lia. }
  assert (Hh : 0 < 2 ^ (e - 1)) by (apply Z.pow_pos_nonneg; lia).
  assert (Hhalf : 2 ^ (e - 1) * 2 ^ 53 <= n).
  { rewrite <- Z.pow_add_r by lia. replace (e - 1 + 53) with (Z.log2 n) by lia.
    exact Hlo. }
  pose proof (Z.div_mod n (2 ^ e) ltac:(lia)) as Hdm.
  pose proof (Z.mod_pos_bound n (2 ^ e) ltac:(lia)) as Hr.
  set (q := n / 2 ^ e) in *. set (r := n mod 2 ^ e) in *.
  set (half := 2 ^ (e - 1)) in *.
  assert (Hd : Z.abs ((if r <? half then q
                       else if half <? r then q + 1
                       else if Z.even q then q else q + 1) * 2 ^ e - n) <= half).
  { apply Z.abs_le.
    destruct (Z.ltb_spec r half); [nia|].
    destruct (Z.ltb_spec half r); [nia|].
    destruct (Z.even q); nia. }
  etransitivity; [|exact Hhalf].
  apply Z.mul_le_mono_nonneg_r; [lia | exact Hd].
Qed.

Lemma round_double_near n :
  Z.abs (JS.round_double n - n) * 2 ^ 53 <= Z.abs n.
Proof.
  unfold JS.round_double.
  pose proof (round_double_pos_near (Z.abs n) (Z.abs_nonneg n)) as H.
  destruct (Z.lt_trichotomy n 0) as [Hn|[Hn|Hn]].
  - rewrite Z.sgn_neg by exact Hn.
    replace (-1 * JS.round_double_pos (Z.abs n) - n)
      with (- (JS.round_double_pos (Z.abs n) - Z.abs n)) by lia.
    rewrite Z.abs_opp. exact H.
  - subst n. simpl. lia.
  - rewrite Z.sgn_pos by exact Hn.
    replace (1 * JS.round_double_pos (Z.abs n) - n)
      with (JS.round_double_pos (Z.abs n) - Z.abs n) by lia.
    exact H.
Qed.

(** [r * k], for a double [r = m / d] below 1 and a positive integer
    [k], stays below [k] after rounding. *)
Lemma double_scale_bound m d k :
  0 <= m < 2 ^ 53 -> m < d -> 0 < k ->
  0 <= JS.round_double (m * k) < k * d.
Proof.
  intros Hm Hd Hk.
  pose proof (round_double_near (m * k)) as Hnear.
  assert (Hn0 : 0 <= m * k) by (apply Z.mul_nonneg_nonneg; lia).
  assert (Hn1 : m * k <= (d - 1) * k) by (apply Z.mul_le_mono_nonneg_r; lia).
  assert (Hn2 : m * k < 2 ^ 53 * k) by (apply Z.mul_lt_mono_pos_r; lia).
  rewrite (Z.abs_eq (m * k)) in Hnear by exact Hn0.
  set (n := m * k) in *. set (R := JS.round_double n) in *.
  assert (Hlt : Z.abs (R - n) < k).
  { apply (Z.mul_lt_mono_pos_r (2 ^ 53)); [reflexivity|].
    rewrite (Z.mul_comm k). lia. }
  change (2 ^ 53) with 9007199254740992 in *.
  lia.
Qed.

Lemma unit_double_spec r :
  Multiplayer.unit_double r = true ->
  0 <= Qnum r < 2 ^ 53 /\ Qnum r < Zpos (Qden r).
Proof.
  unfold Multiplayer.unit_double. intros H.
  repeat (apply andb_true_iff in H as [H ?]).
  split; [split|]; lia.
Qed.

End DoubleProducts.

(** ** The worlds table and host arbitration *)

Section Arbitration.

Import Multiplayer.

Local Arguments generateWorldSeed : simpl never.

Lemma select_single_found id (s : Store) w :
  s !! id = Some w -> select_single id s = (Some w, None).
Proof. intros H. unfold select_single. now rewrite H. Qed.

Lemma select_single_missing id (s : Store) :
  s !! id = None -> select_single id s = (None, Some (mkStoreError "PGRST116")).
Proof. intros H. unfold select_single. now rewrite H. Qed.

Lemma insert_world_refused id row (s : Store) w :
  s !! id = Some w -> insert_world id row s = (s, Some (mkStoreError "23505")).
Proof. intros H. unfold insert_world. now rewrite H. Qed.

Lemma insert_world_accepted id row (s : Store) :
  s !! id = None -> insert_world id row s = (<[id := row]> s, None).
Proof. intros H. unfold insert_world. now rewrite H. Qed.

(** The owner update rewrites the owner column of the addressed row
    and nothing else. *)
Lemma update_owner_lookup id owner (s : Store) id' w :
  s !! id' = Some w ->
  update_owner id owner s !! id'
  = Some (if decide (id = id') then set_owner owner w else w).
Proof.
  intros H. unfold update_owner. rewrite lookup_alter.
  destruct (decide (id = id')) as [->|]; rewrite H; reflexivity.
Qed.

Lemma apply_cmd_keeps_seed c (s : Store) id w :
  s !! id = Some w ->
  exists w', apply_cmd c s !! id = Some w' /\ w_seed w' = w_seed w.
Proof.
  intros H. destruct c as [i | i owner | i row]; simpl.
  - eauto.
  - rewrite (update_owner_lookup _ _ _ _ _ H).
    destruct (decide (i = id)); eauto.
  - unfold insert_world. destruct (s !! i) eqn:Hi; simpl; [eauto|].
    assert (i <> id) by congruence.
    rewrite lookup_insert_ne by assumption. eauto.
Qed.

Lemma apply_cmds_keeps_seed cs : forall (s : Store) id w,
  s !! id = Some w ->
  exists w', apply_cmds cs s !! id = Some w' /\ w_seed w' = w_seed w.
Proof.
  induction cs as [|c cs IH]; intros s id w H; [simpl; eauto|].
  destruct (apply_cmd_keeps_seed c s id w H) as (w1 & H1 & E1).
  destruct (IH _ _ _ H1) as (w2 & H2 & E2).
  exists w2. split; [exact H2 | congruence].
Qed.

(** Whatever a request tree asks for, and whatever other peers send in
    between, a row that exists keeps its seed. *)
Lemma run_keeps_seed {A} (p : Proc A) : forall sched (s : Store) id w,
  s !! id = Some w ->
  exists w', (run p sched s).1.2 !! id = Some w' /\ w_seed w' = w_seed w.
Proof.
  induction p as [a | i k IH | i owner k IH | i row k IH]; intros sched s id w H.
  - simpl. eauto.
  - cbn [run].
    destruct (apply_cmds_keeps_seed (List.hd [] sched) s id w H) as (w1 & H1 & E1).
    destruct (IH (select_single i (apply_cmds (List.hd [] sched) s))
                 (List.tl sched) _ id w1 H1) as (w2 & H2 & E2).
    destruct (run _ _ _) as [[a s2] cs]. simpl in *.
    exists w2. split; [exact H2 | congruence].
  - cbn [run].
    destruct (apply_cmds_keeps_seed (List.hd [] sched) s id w H) as (w1 & H1 & E1).
    destruct (apply_cmd_keeps_seed (CUpdateOwner i owner) _ id w1 H1) as (w1' & H1' & E1').
    simpl in H1'.
    destruct (IH tt (List.tl sched) _ id w1' H1') as (w2 & H2 & E2).
    destruct (run _ _ _) as [[a s2] cs]. simpl in *.
    exists w2. split; [exact H2 | congruence].
  - cbn [run].
    destruct (apply_cmds_keeps_seed (List.hd [] sched) s id w H) as (w1 & H1 & E1).
    destruct (apply_cmd_keeps_seed (CInsert i row) _ id w1 H1) as (w1' & H1' & E1').
    simpl in H1'.
    destruct (insert_world i row (apply_cmds (List.hd [] sched) s)) as [s1' err].
    simpl in H1'.
    destruct (IH err (List.tl sched) _ id w1' H1') as (w2 & H2 & E2).
    destruct (run _ _ _) as [[a s2] cs]. simpl in *.
    exists w2. split; [exact H2 | congruence].
Qed.

(** C8. The owner update leaves seed and name of the row as they
    were; an insert under an id that has a row is refused and changes
    nothing; so through any sequence of requests the manager can send,
    and through a whole arbitration with other peers writing in
    between, every existing row keeps the seed it was created with. *)
Theorem seed_is_never_rewritten :
  (forall id owner (s : Store) id' w,
      s !! id' = Some w ->
      exists w', update_owner id owner s !! id' = Some w'
                 /\ w_seed w' = w_seed w /\ w_name w' = w_name w)
  /\ (forall id row (s : Store) w,
      s !! id = Some w -> fst (insert_world id row s) = s)
  /\ (forall cs (s : Store) id w,
      s !! id = Some w ->
      exists w', apply_cmds cs s !! id = Some w' /\ w_seed w' = w_seed w)
  /\ (forall room pid others rnd sched (s : Store) id w,
      s !! id = Some w ->
      exists w', (run (arbitrate room pid others rnd) sched s).1.2 !! id = Some w'
                 /\ w_seed w' = w_seed w).
Proof.
  split; [|split; [|split]].
  - intros id owner s id' w H. rewrite (update_owner_lookup _ _ _ _ _ H).
    destruct (decide (id = id')); eauto.
  - intros id row s w H. now rewrite (insert_world_refused _ _ _ _ H).
  - intros cs s id w H. apply (apply_cmds_keeps_seed cs s id w H).
  - intros room pid others rnd sched s id w H. apply (run_keeps_seed _ sched s id w H).
Qed.

(** [init] stores what the arbitration resolved in [worldSeed] and
    [isHost], and leaves the table as the arbitration left it. *)
Lemma init_stores_resolution i t presenceState rnd sched (s : Store) m :
  let res := run (arbitrate (ROOM_ID m) (id_playerId i)
                    (otherPlayers presenceState (id_playerId i)) rnd) sched s in
  worldSeed (manager (fst (init i t presenceState rnd sched s m)))
  = Some (r_worldSeed res.1.1)
  /\ isHost (manager (fst (init i t presenceState rnd sched s m))) = r_isHost res.1.1
  /\ snd (init i t presenceState rnd sched s m) = res.1.2.
Proof.
  unfold init. cbn [init_open set_spawnedPlayers set_channel set_identity ROOM_ID].
  destruct (run _ sched s) as [[r s'] cs]. simpl. auto.
Qed.

(** C2, as amended. In the step where the row exists, its owner is
    null and no other peer is observed, the claim is an update filtered
    on the room id alone: whatever other peers wrote between the read
    and the claim, the row's owner is the local peer after it, and
    [isHost] is true. *)
Theorem host_claim_filters_on_room_only room pid rnd env0 env1 rest (s : Store) w :
  apply_cmds env0 s !! room = Some w ->
  owner_falsy (w_owner_player_id w) = true ->
  exists w1,
    apply_cmds env1 (apply_cmds env0 s) !! room = Some w1
    /\ run (arbitrate room pid [] rnd) (env0 :: env1 :: rest) s
       = (mkResolved (w_seed w) true,
          update_owner room pid (apply_cmds env1 (apply_cmds env0 s)),
          [CSelect room; CUpdateOwner room pid])
    /\ update_owner room pid (apply_cmds env1 (apply_cmds env0 s)) !! room
       = Some (set_owner pid w1).
Proof.
  intros Hw Hfalsy.
  destruct (apply_cmds_keeps_seed env1 _ room w Hw) as (w1 & Hw1 & _).
  exists w1. split; [exact Hw1|]. split.
  - unfold arbitrate. cbn [run List.hd List.tl].
    rewrite (select_single_found _ _ _ Hw). rewrite Hfalsy.
    cbn [length]. rewrite bool_decide_eq_true_2 by reflexivity.
    cbn [andb run List.hd List.tl]. reflexivity.
  - rewrite (update_owner_lookup _ _ _ _ _ Hw1).
    now rewrite decide_True by reflexivity.
Qed.

(** C2 as stated fails: peer B claims the room between this peer's
    read and its claim; the claim then replaces B as owner. *)
Lemma host_claim_overwrites_owner :
  w_owner_player_id
    <$> (apply_cmds [CUpdateOwner "portal" "player_b"] Sample.unowned !! "portal")
  = Some (Some "player_b")
  /\ w_owner_player_id
       <$> ((run (arbitrate "portal" "player_me" [] (1 # 2))
               [[]; [CUpdateOwner "portal" "player_b"]] Sample.unowned).1.2
            !! "portal")
     = Some (Some "player_me").
Proof. split; vm_compute; reflexivity. Qed.

Lemma host_claim_filters_on_room_only_witness :
  apply_cmds [] Sample.unowned !! "portal"
  = Some (mkWorld 424242 None "Untitled World")
  /\ owner_falsy (w_owner_player_id (mkWorld 424242 None "Untitled World")) = true
  /\ exists w1,
      apply_cmds [CUpdateOwner "portal" "player_b"] (apply_cmds [] Sample.unowned)
        !! "portal" = Some w1
      /\ run (arbitrate "portal" "player_me" [] (1 # 2))
           ([] :: [CUpdateOwner "portal" "player_b"] :: []) Sample.unowned
         = (mkResolved 424242 true,
            update_owner "portal" "player_me"
              (apply_cmds [CUpdateOwner "portal" "player_b"]
                 (apply_cmds [] Sample.unowned)),
            [CSelect "portal"; CUpdateOwner "portal" "player_me"])
      /\ update_owner "portal" "player_me"
           (apply_cmds [CUpdateOwner "portal" "player_b"]
              (apply_cmds [] Sample.unowned)) !! "portal"
         = Some (set_owner "player_me" w1).
Proof.
  assert (H1 : apply_cmds [] Sample.unowned !! "portal"
               = Some (mkWorld 424242 None "Untitled World"))
    by (vm_compute; reflexivity).
  split; [exact H1|]. split; [reflexivity|].
  exact (host_claim_filters_on_room_only "portal" "player_me" (1 # 2)
           [] [CUpdateOwner "portal" "player_b"] [] Sample.unowned _ H1 eq_refl).
Defined.

(** C3. When the first read finds no row, [init] draws a seed and
    sends an insert of a row with that seed and the local peer as
    owner. The seed is [Math.floor(Math.random() * 1000000)] computed
    in doubles: the product [m * 1000000 / 2^e], rounded to the nearest
    double (a relative error of at most 2^-53), then rounded down to an
    integer. If a row exists by the time the insert arrives, the insert
    is refused, [init] reads again, finds the row, and ends with that
    row's seed and [isHost = false]; the table is left as the other
    peers made it. If no row exists, the insert goes through and [init]
    ends with the drawn seed and [isHost = true]. *)
Theorem arbitrate_room_not_found room pid others rnd env0 env1 env2 rest (s : Store) :
  apply_cmds env0 s !! room = None ->
  (generateWorldSeed rnd = JS.round_double (Qnum rnd * 1000000) / Zpos (Qden rnd)
   /\ Z.abs (JS.round_double (Qnum rnd * 1000000) - Qnum rnd * 1000000) * 2 ^ 53
      <= Z.abs (Qnum rnd * 1000000))
  /\ (forall w,
      apply_cmds env1 (apply_cmds env0 s) !! room = Some w ->
      exists rw,
        apply_cmds env2 (apply_cmds env1 (apply_cmds env0 s)) !! room = Some rw
        /\ run (arbitrate room pid others rnd) (env0 :: env1 :: env2 :: rest) s
           = (mkResolved (w_seed rw) false,
              apply_cmds env2 (apply_cmds env1 (apply_cmds env0 s)),
              [CSelect room;
               CInsert room (mkWorld (generateWorldSeed rnd) (Some pid) "Untitled World");
               CSelect room]))
  /\ (apply_cmds env1 (apply_cmds env0 s) !! room = None ->
      run (arbitrate room pid others rnd) (env0 :: env1 :: env2 :: rest) s
      = (mkResolved (generateWorldSeed rnd) true,
         <[room := mkWorld (generateWorldSeed rnd) (Some pid) "Untitled World"]>
           (apply_cmds env1 (apply_cmds env0 s)),
         [CSelect room;
          CInsert room (mkWorld (generateWorldSeed rnd) (Some pid) "Untitled World")])).
Proof.
  intros Hnone. split; [|split].
  - split; [reflexivity | apply round_double_near].
  - intros w Hw.
    destruct (apply_cmds_keeps_seed env2 _ room w Hw) as (rw & Hrw & _).
    exists rw. split; [exact Hrw|].
    unfold arbitrate. cbn [run List.hd List.tl].
    rewrite (select_single_missing _ _ Hnone).
    cbn [run List.hd List.tl].
    rewrite (insert_world_refused _ _ _ _ Hw).
    cbn [run List.hd List.tl].
    rewrite (select_single_found _ _ _ Hrw).
    reflexivity.
  - intros Hfree.
    unfold arbitrate. cbn [run List.hd List.tl].
    rewrite (select_single_missing _ _ Hnone).
    cbn [run List.hd List.tl].
    rewrite (insert_world_accepted _ _ _ Hfree).
    reflexivity.
Qed.

(** An instance with [Math.random()] returning the double nearest to
    0.999999, which is [9007190247541737 / 2^53]: the exact product
    lies just below 999999 and rounds to the double 999999, so the seed
    drawn is 999999. *)
Lemma arbitrate_room_not_found_witness :
  apply_cmds [] (∅ : Store) !! "portal" = None
  /\ apply_cmds [CInsert "portal" (mkWorld 777 (Some "player_b") "Untitled World")]
       (apply_cmds [] (∅ : Store)) !! "portal"
     = Some (mkWorld 777 (Some "player_b") "Untitled World")
  /\ generateWorldSeed (9007190247541737 # 9007199254740992) = 999999
  /\ (9007190247541737 * 1000000) / 9007199254740992 = 999998
  /\ exists rw,
      apply_cmds []
        (apply_cmds [CInsert "portal" (mkWorld 777 (Some "player_b") "Untitled World")]
           (apply_cmds [] (∅ : Store))) !! "portal" = Some rw
      /\ run (arbitrate "portal" "player_me" []
                (9007190247541737 # 9007199254740992))
           ([] :: [CInsert "portal" (mkWorld 777 (Some "player_b") "Untitled World")]
               :: [] :: []) (∅ : Store)
         = (mkResolved (w_seed rw) false,
            apply_cmds []
              (apply_cmds [CInsert "portal" (mkWorld 777 (Some "player_b") "Untitled World")]
                 (apply_cmds [] (∅ : Store))),
            [CSelect "portal";
             CInsert "portal"
               (mkWorld (generateWorldSeed (9007190247541737 # 9007199254740992))
                  (Some "player_me") "Untitled World");
             CSelect "portal"]).
Proof.
  assert (H0 : apply_cmds [] (∅ : Store) !! "portal" = None) by reflexivity.
  assert (H1 : apply_cmds [CInsert "portal" (mkWorld 777 (Some "player_b") "Untitled World")]
                 (apply_cmds [] (∅ : Store)) !! "portal"
               = Some (mkWorld 777 (Some "player_b") "Untitled World"))
    by (vm_compute; reflexivity).
  pose proof (arbitrate_room_not_found "portal" "player_me" []
                (9007190247541737 # 9007199254740992)
                [] [CInsert "portal" (mkWorld 777 (Some "player_b") "Untitled World")]
                [] [] ∅ H0) as [[Hseed _] [Hrace _]].
  split; [exact H0|]. split; [exact H1|].
  split; [rewrite Hseed; vm_compute; reflexivity|].
  split; [vm_compute; reflexivity|].
  exact (Hrace _ H1).
Defined.

Lemma seed_is_never_rewritten_witness :
  Sample.unowned !! "portal" = Some (mkWorld 424242 None "Untitled World")
  /\ exists w',
      (run (arbitrate "portal" "player_me" [] (1 # 2))
         [[]; [CUpdateOwner "portal" "player_b"]] Sample.unowned).1.2 !! "portal"
      = Some w'
      /\ w_seed w' = w_seed (mkWorld 424242 None "Untitled World").
Proof.
  assert (H1 : Sample.unowned !! "portal" = Some (mkWorld 424242 None "Untitled World"))
    by (vm_compute; reflexivity).
  split; [exact H1|].
  exact (proj2 (proj2 (proj2 seed_is_never_rewritten))
           "portal" "player_me" [] (1 # 2)
           [[]; [CUpdateOwner "portal" "player_b"]] Sample.unowned "portal" _ H1).
Defined.

End Arbitration.

(** ** Timers and leave *)

Section Timers.

Import Multiplayer.

Lemma leave_closes_channel m : channel (fst (leave m)) = None.
Proof. unfold leave. destruct (channel m) eqn:H; [reflexivity | exact H]. Qed.

Lemma heartbeat_closed joinedAt now m :
  channel m = None -> heartbeat joinedAt now m = [].
Proof. intros H. unfold heartbeat. now rewrite H. Qed.

Lemma rt_leave_unfold rt :
  rt_leave rt
  = mkRuntime (fst (leave (manager rt))) (timers rt)
      (trace rt ++ snd (leave (manager rt))).
Proof. unfold rt_leave, lift. destruct (leave (manager rt)); reflexivity. Qed.

(** C6, as amended. [leave] untracks, removes the channel and sets
    [channel] to null, and clears no timer: every timer registered
    before is registered after. The heartbeat interval therefore keeps
    firing, and each firing after [leave] does nothing: the callback
    finds [channel] null and publishes no presence. *)
Theorem leave_clears_no_timer rt :
  timers (rt_leave rt) = timers rt
  /\ channel (manager (rt_leave rt)) = None
  /\ (channel (manager rt) <> None ->
      trace (rt_leave rt) = trace rt ++ [ChannelUntrack; RemoveChannel])
  /\ (forall n ms joinedAt state now,
        timers rt !! n = Some (HeartbeatInterval ms joinedAt) ->
        fire n state now (rt_leave rt) = Some (rt_leave rt)).
Proof.
  rewrite rt_leave_unfold. cbn [timers manager trace].
  split; [reflexivity|]. split; [apply leave_closes_channel|]. split.
  - intros Hc. unfold leave. destruct (channel (manager rt)); [reflexivity | congruence].
  - intros n ms joinedAt state now Hn. unfold fire. cbn [timers manager trace].
    rewrite Hn, heartbeat_closed by apply leave_closes_channel.
    now rewrite app_nil_r.
Qed.

(** C6 as stated fails: after [init] and [leave] both timers are still
    registered, the heartbeat interval fires, and the delayed check
    fires against the closed channel. *)
Lemma leave_leaves_timers_registered :
  timers (rt_leave Sample.session)
  = [HeartbeatInterval 20000 Sample.now; DelayedSyncTimeout 500]
  /\ channel (manager (rt_leave Sample.session)) = None
  /\ fire 0 [] (Sample.now + 20000) (rt_leave Sample.session)
     = Some (rt_leave Sample.session)
  /\ trace <$> fire 1 [] (Sample.now + 500) (rt_leave Sample.session)
     = Some (trace (rt_leave Sample.session) ++ [UncaughtTypeError]).
Proof. split; [|split; [|split]]; vm_compute; reflexivity. Qed.

Lemma leave_clears_no_timer_witness :
  channel (manager Sample.session) <> None
  /\ timers Sample.session !! 0%nat = Some (HeartbeatInterval 20000 Sample.now)
  /\ trace (rt_leave Sample.session)
     = trace Sample.session ++ [ChannelUntrack; RemoveChannel]
  /\ fire 0 [] (Sample.now + 20000) (rt_leave Sample.session)
     = Some (rt_leave Sample.session).
Proof.
  assert (H1 : channel (manager Sample.session) <> None)
    by (vm_compute; discriminate).
  assert (H2 : timers Sample.session !! 0%nat = Some (HeartbeatInterval 20000 Sample.now))
    by (vm_compute; reflexivity).
  split; [exact H1|]. split; [exact H2|]. split.
  - exact (proj1 (proj2 (proj2 (leave_clears_no_timer Sample.session))) H1).
  - exact (proj2 (proj2 (proj2 (leave_clears_no_timer Sample.session)))
             0%nat _ _ [] (Sample.now + 20000) H2).
Defined.

End Timers.

(** * Further properties of the code *)

(** ** Double rounding of integers *)

Section Rounding.

Lemma round_double_exact n : 0 <= n < 2 ^ 53 -> JS.round_double n = n.
Proof.
  intros H. unfold JS.round_double, JS.round_double_pos.
  rewrite Z.abs_eq by lia.
  destruct (Z.ltb_spec n (2 ^ 53)); [|lia].
  destruct (Z.eq_dec n 0) as [->|Hn]; [reflexivity|].
  rewrite Z.sgn_pos by lia. lia.
Qed.

Lemma add_exact a b : 0 <= a + b < 2 ^ 53 -> JS.add a b = a + b.
Proof. apply round_double_exact. Qed.

(** Rounding a large integer moves it up by at most half a unit in the
    last place, and never below zero. *)
Lemma round_double_pos_bounds n :
  2 ^ 53 <= n ->
  0 <= JS.round_double_pos n <= n + 2 ^ (Z.log2 n - 53).
Proof.
  intros Hn. unfold JS.round_double_pos.
  destruct (Z.ltb_spec n (2 ^ 53)); [lia|].
  assert (Hlog : 53 <= Z.log2 n) by (apply Z.log2_le_pow2; lia).
  set (e := Z.log2 n - 52).
  assert (He : 2 ^ e = 2 * 2 ^ (e - 1)).
  { replace e with (Z.succ (e - 1)) at 1 by lia. apply Z.pow_succ_r. lia. }
  replace (Z.log2 n - 53) with (e - 1) by lia.
  assert (Hh : 0 < 2 ^ (e - 1)) by (apply Z.pow_pos_nonneg; lia).
  pose proof (Z.div_mod n (2 ^ e) ltac:(lia)) as Hdm.
  pose proof (Z.mod_pos_bound n (2 ^ e) ltac:(lia)) as Hr.
  assert (Hq : 0 <= n / 2 ^ e) by (apply Z.div_pos; lia).
  set (q := n / 2 ^ e) in *. set (r := n mod 2 ^ e) in *.
  set (half := 2 ^ (e - 1)) in *.
  destruct (Z.ltb_spec r half); [nia|].
  destruct (Z.ltb_spec half r); [nia|].
  destruct (Z.even q); nia.
Qed.

(** [r * k], for [r = u / 2^32] below 1 and a positive number of
    choices [k], stays below [k] after rounding. *)
Lemma unit_scale_bound u k :
  0 <= u < 2 ^ 32 -> 0 < k ->
  0 <= JS.round_double (u * k) < k * 2 ^ 32.
Proof.
  intros Hu Hk.
  assert (Hn : 0 <= u * k <= k * 2 ^ 32 - k) by nia.
  destruct (Z.eq_dec (u * k) 0) as [E|Hnz];
    [rewrite E, round_double_exact by lia; lia|].
  unfold JS.round_double. rewrite Z.sgn_pos, Z.abs_eq, Z.mul_1_l by lia.
  destruct (Z.lt_ge_cases (u * k) (2 ^ 53)) as [Hs|Hl].
  - unfold JS.round_double_pos.
    destruct (Z.ltb_spec (u * k) (2 ^ 53)); lia.
  - pose proof (round_double_pos_bounds _ Hl) as [H0 H1].
    split; [exact H0|].
    assert (Hlog : 53 <= Z.log2 (u * k)) by (apply Z.log2_le_pow2; lia).
    pose proof (Z.log2_spec (u * k) ltac:(lia)) as [Hlo _].
    replace (Z.log2 (u * k)) with ((Z.log2 (u * k) - 53) + 53) in Hlo at 1 by lia.
    rewrite Z.pow_add_r in Hlo by lia.
    assert (0 < 2 ^ (Z.log2 (u * k) - 53)) by (apply Z.pow_pos_nonneg; lia).
    change (2 ^ 53) with (2097152 * 2 ^ 32) in Hlo.
    nia.
Qed.

End Rounding.

(** ** The generator's outputs *)

Section GeneratorOutputs.

Import Rng RngUse.

Local Arguments mulberry32_step : simpl never.
Local Arguments mulberry32_mix : simpl never.

Lemma mulberry32_step_mix seed :
  mulberry32_step seed
  = (JS.add seed 1831565813, mulberry32_mix (JS.add seed 1831565813)).
Proof. reflexivity. Qed.

Lemma mulberry32_mix_parts t :
  exists u, mulberry32_mix t = Qmake u 4294967296 /\ 0 <= u < 2 ^ 32.
Proof. eexists. split; [reflexivity | apply ushr_range]. Qed.

Lemma mulberry32_output_mix seed n :
  mulberry32_output seed n = mulberry32_mix (mulberry32_state seed (S n)).
Proof.
  unfold mulberry32_output. cbn [mulberry32_state].
  now rewrite !mulberry32_step_mix.
Qed.

(** X1. Every number a [mulberry32] generator returns lies in [0, 1),
    whatever the seed and however many calls came before. *)
Theorem mulberry32_output_unit_interval seed n :
  (0 <= mulberry32_output seed n)%Q /\ (mulberry32_output seed n < 1)%Q.
Proof.
  rewrite mulberry32_output_mix.
  destruct (mulberry32_mix_parts (mulberry32_state seed (S n))) as (u & -> & Hu).
  unfold Qle, Qlt. simpl. lia.
Qed.

Lemma ToInt32_low t : JS.ToInt32 (t mod 2 ^ 32) = JS.ToInt32 t.
Proof. unfold JS.ToInt32. rewrite two32_pow, Z.mod_mod by lia. reflexivity. Qed.

Lemma ToUint32_low t : JS.ToUint32 (t mod 2 ^ 32) = JS.ToUint32 t.
Proof. unfold JS.ToUint32. rewrite two32_pow, Z.mod_mod by lia. reflexivity. Qed.

(** The mixing reads only the low 32 bits of the captured seed. *)
Lemma mulberry32_mix_low t : mulberry32_mix (t mod 2 ^ 32) = mulberry32_mix t.
Proof.
  unfold mulberry32_mix, JS.xor, JS.bor, JS.ushr.
  rewrite !ToInt32_low, !ToUint32_low. reflexivity.
Qed.

(** While it stays below 2^53 the captured seed grows by exactly
    0x6d2b79f5 per call. *)
Lemma mulberry32_state_linear seed n :
  0 <= seed ->
  seed + Z.of_nat n * 1831565813 < 2 ^ 53 ->
  mulberry32_state seed n = seed + Z.of_nat n * 1831565813.
Proof.
  intros H0. induction n as [|n IH]; intros Hb.
  - simpl. lia.
  - cbn [mulberry32_state]. rewrite mulberry32_step_mix. cbn [fst].
    rewrite IH by lia. rewrite add_exact by lia. lia.
Qed.

(** X2. Random access into a position stream: for the first 4,917,756
    calls, call number [n] of the generator of
    [createPositionRandom(seed, x, z)] returns the mixing of
    [(hash + (n+1) * 0x6d2b79f5) mod 2^32], where [hash] is the position
    hash: the stream of the 32-bit mulberry32 generator seeded with the
    hash. *)
Theorem position_stream_closed_form seed x z n :
  Z.of_nat n < 4917756 ->
  position_stream seed x z n
  = mulberry32_mix
      ((hashPosition seed x z + (Z.of_nat n + 1) * 1831565813) mod 2 ^ 32).
Proof.
  intros Hn. unfold position_stream.
  rewrite mulberry32_output_mix, mulberry32_mix_low.
  pose proof (hashPosition_range seed x z) as Hh.
  set (h := hashPosition seed x z) in *.
  change (2 ^ 32) with 4294967296 in Hh.
  assert (Hs : mulberry32_state h (S n) = h + Z.of_nat (S n) * 1831565813).
  { apply mulberry32_state_linear; [lia|].
    change (2 ^ 53) with 9007199254740992. lia. }
  rewrite Nat2Z.inj_succ in Hs. unfold Z.succ in Hs.
  rewrite Hs. reflexivity.
Qed.

Lemma position_stream_closed_form_witness :
  Z.of_nat 3 < 4917756
  /\ position_stream 12345 1000 2000 3
     = mulberry32_mix ((hashPosition 12345 1000 2000 + (Z.of_nat 3 + 1) * 1831565813)
                       mod 2 ^ 32).
Proof.
  assert (H : Z.of_nat 3 < 4917756) by reflexivity.
  split; [exact H|].
  exact (position_stream_closed_form 12345 1000 2000 3 H).
Defined.

(** X6. The position hash reads only the low 32 bits of each argument:
    seeds or coordinates that differ by multiples of 2^32 give the same
    hash, hence the same stream. *)
Theorem hashPosition_period seed x z a b c n :
  hashPosition (seed + a * 2 ^ 32) (x + b * 2 ^ 32) (z + c * 2 ^ 32)
  = hashPosition seed x z
  /\ position_stream (seed + a * 2 ^ 32) (x + b * 2 ^ 32) (z + c * 2 ^ 32) n
     = position_stream seed x z n.
Proof.
  assert (H : hashPosition (seed + a * 2 ^ 32) (x + b * 2 ^ 32) (z + c * 2 ^ 32)
              = hashPosition seed x z).
  { rewrite !hashPosition_eq_u32. unfold hashPosition_u32.
    rewrite !Z.mod_add by lia. reflexivity. }
  split; [exact H|]. unfold position_stream. now rewrite H.
Qed.

End GeneratorOutputs.

(** ** The position hash is one-to-one in each argument *)

Section HashInjective.

Lemma mul_odd_cancel c inv a b :
  (c * inv) mod 2 ^ 32 = 1 ->
  (a * c) mod 2 ^ 32 = (b * c) mod 2 ^ 32 ->
  a mod 2 ^ 32 = b mod 2 ^ 32.
Proof.
  intros Hinv H.
  assert (Hk : forall v, ((v * c) mod 2 ^ 32 * inv) mod 2 ^ 32 = v mod 2 ^ 32).
  { intros v. rewrite Z.mul_mod_idemp_l, <- Z.mul_assoc by lia.
    rewrite Z.mul_mod, Hinv, Z.mul_1_r, Z.mod_mod by lia. reflexivity. }
  rewrite <- (Hk a), <- (Hk b), H. reflexivity.
Qed.

Lemma lxor_cancel_l a x y : Z.lxor a x = Z.lxor a y -> x = y.
Proof.
  intros H.
  rewrite <- (Z.lxor_0_l x), <- (Z.lxor_0_l y), <- (Z.lxor_nilpotent a).
  rewrite !Z.lxor_assoc, H. reflexivity.
Qed.

Lemma lxor_cancel_r a x y : Z.lxor x a = Z.lxor y a -> x = y.
Proof. rewrite !(Z.lxor_comm _ a). apply lxor_cancel_l. Qed.

(** [h ^ (h >>> 16)] undoes itself on 32-bit values. *)
Lemma xorshift16_involutive h :
  0 <= h < 2 ^ 32 ->
  Z.lxor (Z.lxor h (Z.shiftr h 16)) (Z.shiftr (Z.lxor h (Z.shiftr h 16)) 16) = h.
Proof.
  intros Hh. rewrite Z.shiftr_lxor, Z.shiftr_shiftr by lia.
  change (16 + 16) with 32.
  rewrite (Z.shiftr_div_pow2 h 32), Z.div_small by lia.
  rewrite Z.lxor_0_r, Z.lxor_assoc, Z.lxor_nilpotent, Z.lxor_0_r. reflexivity.
Qed.

Lemma xorshift16_cancel h h' :
  0 <= h < 2 ^ 32 -> 0 <= h' < 2 ^ 32 ->
  Z.lxor h (Z.shiftr h 16) = Z.lxor h' (Z.shiftr h' 16) -> h = h'.
Proof.
  intros Hh Hh' H.
  rewrite <- (xorshift16_involutive h Hh), <- (xorshift16_involutive h' Hh'), H.
  reflexivity.
Qed.

Lemma mod32_range v : 0 <= v mod 2 ^ 32 < 2 ^ 32.
Proof. apply Z.mod_pos_bound. lia. Qed.

(** One xor-then-multiply round, as a map on 32-bit values, is one-to-one
    in the running hash and in the operand. *)
Lemma round_cancel c inv h v h' v' :
  (c * inv) mod 2 ^ 32 = 1 ->
  0 <= h < 2 ^ 32 -> 0 <= v < 2 ^ 32 -> 0 <= h' < 2 ^ 32 -> 0 <= v' < 2 ^ 32 ->
  (Z.lxor h v * c) mod 2 ^ 32 = (Z.lxor h' v' * c) mod 2 ^ 32 ->
  Z.lxor h v = Z.lxor h' v'.
Proof.
  intros Hinv Hh Hv Hh' Hv' H.
  apply (mul_odd_cancel c inv) in H; [|exact Hinv].
  rewrite !Z.mod_small in H by (apply lxor_range; lia). exact H.
Qed.

(** X7. With the other two arguments fixed, the position hash is
    one-to-one in the seed, in [x] and in [z], up to multiples of 2^32:
    two cells in the same row or column within 2^32 of each other never
    share a generator seed. *)
Theorem hashPosition_injective seed x z seed' x' z' :
  (hashPosition seed x z = hashPosition seed' x z ->
     seed mod 2 ^ 32 = seed' mod 2 ^ 32)
  /\ (hashPosition seed x z = hashPosition seed x' z ->
     x mod 2 ^ 32 = x' mod 2 ^ 32)
  /\ (hashPosition seed x z = hashPosition seed x z' ->
     z mod 2 ^ 32 = z' mod 2 ^ 32).
Proof.
  assert (I1 : (2246822507 * 2781581891) mod 2 ^ 32 = 1) by reflexivity.
  assert (I2 : (3266489909 * 2127672349) mod 2 ^ 32 = 1) by reflexivity.
  rewrite !hashPosition_eq_u32. unfold hashPosition_u32.
  pose proof mod32_range as R.
  split; [|split]; intros H.
  - apply xorshift16_cancel in H; [|apply R|apply R].
    apply (round_cancel _ _ _ _ _ _ I2) in H; [|apply R..].
    apply lxor_cancel_r in H.
    apply (round_cancel _ _ _ _ _ _ I1) in H; [|apply R..].
    apply lxor_cancel_r in H. exact H.
  - apply xorshift16_cancel in H; [|apply R|apply R].
    apply (round_cancel _ _ _ _ _ _ I2) in H; [|apply R..].
    apply lxor_cancel_r in H.
    apply (round_cancel _ _ _ _ _ _ I1) in H; [|apply R..].
    apply lxor_cancel_l in H. exact H.
  - apply xorshift16_cancel in H; [|apply R|apply R].
    apply (round_cancel _ _ _ _ _ _ I2) in H; [|apply R..].
    apply lxor_cancel_l in H. exact H.
Qed.

Lemma hashPosition_injective_witness :
  hashPosition 12345 7 2000 = hashPosition 12345 (7 + 2 ^ 32) 2000
  /\ 7 mod 2 ^ 32 = (7 + 2 ^ 32) mod 2 ^ 32.
Proof.
  assert (H : hashPosition 12345 7 2000 = hashPosition 12345 (7 + 2 ^ 32) 2000)
    by (vm_compute; reflexivity).
  split; [exact H|].
  exact (proj1 (proj2 (hashPosition_injective 12345 7 2000 12345 (7 + 2 ^ 32) 2000)) H).
Defined.

End HashInjective.

(** ** The global generator and its users *)

Section GlobalGenerator.

Import Rng RngUse.

Local Arguments mulberry32_step : simpl never.

Lemma getRandom_seeded r st c :
  seededRandom st = Seeded c ->
  getRandom r st
  = ({| seededRandom := Seeded (fst (mulberry32_step c));
        globalWorldSeed := globalWorldSeed st;
        closures := closures st |},
     snd (mulberry32_step c)).
Proof.
  intros H. unfold getRandom. rewrite H.
  destruct (mulberry32_step c); reflexivity.
Qed.

(** A call other than a reseed or a reset moves the global generator
    by one step when it takes a number from it and not at all
    otherwise, and leaves the recorded seed alone. *)
Lemma exec_draw_advances d st s k :
  seededRandom st = Seeded (mulberry32_state s k) ->
  seededRandom (fst (RngDraws.exec_draw d st))
  = Seeded (mulberry32_state s (if RngDraws.draws d then S k else k))
  /\ globalWorldSeed (fst (RngDraws.exec_draw d st)) = globalWorldSeed st
  /\ snd (RngDraws.exec_draw d st)
     = match d with
       | RngDraws.DGetRandom _ => Some (mulberry32_output s k)
       | _ => None
       end.
Proof.
  intros H. destruct d as [r | lo hi r | lo hi r | arr r | sd x z | g];
    cbn [RngDraws.exec_draw RngDraws.draws].
  - rewrite (getRandom_seeded _ _ _ H). cbn [fst snd seededRandom globalWorldSeed].
    split; [reflexivity | split; reflexivity].
  - unfold RngDraws.randFloat. rewrite (getRandom_seeded _ _ _ H).
    cbn [fst snd seededRandom globalWorldSeed].
    split; [reflexivity | split; reflexivity].
  - unfold randInt. rewrite (getRandom_seeded _ _ _ H).
    cbn [fst snd seededRandom globalWorldSeed].
    split; [reflexivity | split; reflexivity].
  - unfold choice. rewrite (getRandom_seeded _ _ _ H).
    cbn [fst snd seededRandom globalWorldSeed].
    split; [reflexivity | split; reflexivity].
  - unfold createPositionRandom. cbn [fst snd seededRandom globalWorldSeed].
    split; [exact H | split; reflexivity].
  - unfold call. destruct (closures st !! g) as [c|].
    + destruct (mulberry32_step c). cbn [fst snd seededRandom globalWorldSeed].
      split; [exact H | split; reflexivity].
    + cbn [fst snd]. split; [exact H | split; reflexivity].
Qed.

Lemma getRandom_results_stream ds : forall st s k,
  seededRandom st = Seeded (mulberry32_state s k) ->
  RngDraws.getRandom_results ds st
  = mulberry32_output s <$> RngDraws.getRandom_positions k ds
  /\ globalWorldSeed (RngDraws.run_draws ds st) = globalWorldSeed st.
Proof.
  induction ds as [|d ds IH]; intros st s k Hst; [split; reflexivity|].
  destruct (exec_draw_advances d st s k Hst) as (Hs & Hg & Hv).
  cbn [RngDraws.getRandom_results RngDraws.run_draws].
  destruct (RngDraws.exec_draw d st) as [st' v]. cbn [fst snd] in *.
  destruct (IH st' s _ Hs) as [IH1 IH2].
  rewrite IH2, Hg. split; [|reflexivity].
  subst v. rewrite IH1.
  destruct d; reflexivity.
Qed.

(** X3. Reseeding replays: after [setRandomSeed(s)], and until the
    next reseed or reset, every [getRandom], [randFloat], [randInt] and
    [choice] call takes exactly one number from the [mulberry32] stream
    seeded with [s], in call order starting from output number 0: each
    [getRandom] call returns the output whose number is the count of
    such calls made before it. This holds whatever came before the
    reseed, whatever [Math.random] would have returned, and however
    many position generators are created and called in between;
    [getWorldSeed] returns [s] throughout. *)
Theorem setRandomSeed_replays s st ds :
  RngDraws.getRandom_results ds (setRandomSeed s st)
  = mulberry32_output s <$> RngDraws.getRandom_positions 0 ds
  /\ getWorldSeed (RngDraws.run_draws ds (setRandomSeed s st)) = Some s.
Proof.
  destruct (getRandom_results_stream ds (setRandomSeed s st) s 0%nat eq_refl)
    as [H1 H2].
  split; [exact H1 | exact H2].
Qed.

(** An instance: a die roll, a pick and a float between two [getRandom]
    calls put the second [getRandom] at output number 4. *)
Example reseed_interleaved_instance :
  RngDraws.getRandom_results
    [RngDraws.DGetRandom (1 # 2); RngDraws.DRandInt 1 6 (1 # 2);
     RngDraws.DCreatePositionRandom 1 2 3; RngDraws.DPositionCall 0;
     RngDraws.DChoice ["a"; "b"] (1 # 2); RngDraws.DRandFloat (1 # 4) (3 # 4) (1 # 2);
     RngDraws.DGetRandom (1 # 2)]
    (setRandomSeed 42 initial)
  = [mulberry32_output 42 0; mulberry32_output 42 4].
Proof. vm_compute. reflexivity. Qed.

Lemma Qfloor_dyadic n : Qfloor (Qmake n 4294967296) = n / 2 ^ 32.
Proof. reflexivity. Qed.

(** The index [Math.floor(r * k)] for a seeded draw [r] and [k > 0]
    choices. *)
Lemma scaled_index_range c k :
  0 < k ->
  0 <= Qfloor (JSNum.mul_unit (snd (mulberry32_step c)) k) < k.
Proof.
  intros Hk. rewrite mulberry32_step_mix. cbn [snd].
  destruct (mulberry32_mix_parts (JS.add c 1831565813)) as (u & -> & Hu).
  unfold JSNum.mul_unit. cbn [Qnum Qden]. rewrite Qfloor_dyadic.
  pose proof (unit_scale_bound u k Hu Hk) as [H0 H1].
  split.
  - apply Z.div_pos; lia.
  - apply Z.div_lt_upper_bound; lia.
Qed.

(** X4. With the global generator seeded, [randInt(min, max)] for
    integers [min <= max] of magnitude at most 2^51 returns an integer
    between [min] and [max], both included. *)
Theorem randInt_in_range min max r st c :
  seededRandom st = Seeded c ->
  min <= max ->
  - 2 ^ 51 <= min -> max <= 2 ^ 51 ->
  min <= snd (randInt min max r st) <= max.
Proof.
  intros Hst Hle Hmin Hmax. unfold randInt.
  rewrite (getRandom_seeded _ _ _ Hst). cbn [snd].
  assert (Hsub : JSNum.sub max min = max - min)
    by (apply round_double_exact; change (2 ^ 53) with (4 * 2 ^ 51); lia).
  assert (Hk : JS.add (JSNum.sub max min) 1 = max - min + 1)
    by (rewrite Hsub; apply add_exact; change (2 ^ 53) with (4 * 2 ^ 51); lia).
  rewrite Hk.
  pose proof (scaled_index_range c (max - min + 1) ltac:(lia)) as Hi.
  set (i := Qfloor _) in *.
  unfold JS.add, JS.round_double.
  destruct (Z.eq_dec (i + min) 0) as [E|Hnz]; [rewrite E; simpl; lia|].
  assert (Hrp : JS.round_double_pos (Z.abs (i + min)) = Z.abs (i + min)).
  { unfold JS.round_double_pos.
    destruct (Z.ltb_spec (Z.abs (i + min)) (2 ^ 53)); [reflexivity|].
    change (2 ^ 53) with (4 * 2 ^ 51) in *. lia. }
  rewrite Hrp, Z.mul_comm, Z.abs_sgn. lia.
Qed.

Lemma randInt_in_range_witness :
  seededRandom (setRandomSeed 42 initial) = Seeded 42
  /\ 1 <= 6 /\ - 2 ^ 51 <= 1 /\ 6 <= 2 ^ 51
  /\ 1 <= snd (randInt 1 6 (1 # 2) (setRandomSeed 42 initial)) <= 6.
Proof.
  assert (H1 : 1 <= 6) by lia.
  assert (H2 : - 2 ^ 51 <= 1) by lia.
  assert (H3 : 6 <= 2 ^ 51) by lia.
  split; [reflexivity|]. do 3 (split; [assumption|]).
  exact (randInt_in_range 1 6 (1 # 2) (setRandomSeed 42 initial) 42 eq_refl H1 H2 H3).
Defined.

(** X5. With the global generator seeded, [choice(arr)] on a non-empty
    array returns one of its elements; on an empty array it returns
    [undefined], in any state of the generator. *)
Theorem choice_picks_member {A : Type} (arr : list A) r st c :
  (seededRandom st = Seeded c -> arr <> [] ->
     exists x, snd (choice arr r st) = Some x /\ x ∈ arr)
  /\ snd (choice (@nil A) r st) = None.
Proof.
  split.
  - intros Hst Hne. unfold choice.
    rewrite (getRandom_seeded _ _ _ Hst). cbn [snd].
    assert (Hlen : 0 < Z.of_nat (length arr)) by (destruct arr; [congruence | simpl; lia]).
    pose proof (scaled_index_range c _ Hlen) as Hi.
    set (i := Qfloor _) in *.
    unfold JSNum.index. destruct (Z.ltb_spec i 0); [lia|].
    destruct (lookup_lt_is_Some_2 arr (Z.to_nat i) ltac:(lia)) as [x Hx].
    exists x. split; [exact Hx|]. apply list_elem_of_lookup. eauto.
  - unfold choice. destruct (getRandom r st) as [st' v]. cbn [snd length].
    unfold JSNum.mul_unit, JSNum.index. rewrite Z.mul_0_r.
    change (JS.round_double 0) with 0.
    unfold Qfloor. rewrite Z.div_0_l by lia. reflexivity.
Qed.

Lemma choice_picks_member_witness :
  seededRandom (setRandomSeed 42 initial) = Seeded 42
  /\ ["walls"; "roofs"; "doors"] <> []
  /\ exists x,
      snd (choice ["walls"; "roofs"; "doors"] (1 # 2) (setRandomSeed 42 initial)) = Some x
      /\ x ∈ ["walls"; "roofs"; "doors"].
Proof.
  assert (H : ["walls"; "roofs"; "doors"] <> @nil string) by discriminate.
  split; [reflexivity|]. split; [exact H|].
  exact (proj1 (choice_picks_member ["walls"; "roofs"; "doors"] (1 # 2)
                  (setRandomSeed 42 initial) 42) eq_refl H).
Defined.

End GlobalGenerator.

(** ** Biome selection *)

Section BiomeSelection.

Import Rng RngUse Biomes.

Local Arguments mulberry32_step : simpl never.
Local Arguments hashPosition : simpl never.
Local Arguments position_stream : simpl never.

Lemma replicate_filter_same (name : string) n :
  filter (fun x => x = name) (replicate n name) = replicate n name.
Proof.
  induction n as [|n IH]; [reflexivity|].
  simpl. rewrite filter_cons_True by reflexivity. now rewrite IH.
Qed.

Lemma replicate_filter_other (name other : string) n :
  other <> name -> filter (fun x => x = name) (replicate n other) = [].
Proof.
  intros Hne. induction n as [|n IH]; [reflexivity|].
  simpl. rewrite filter_cons_False by exact Hne. exact IH.
Qed.

Lemma rebuildBiomePool_cons name w rest :
  rebuildBiomePool ((name, w) :: rest)
  = replicate (Z.to_nat w) name ++ rebuildBiomePool rest.
Proof. reflexivity. Qed.

Lemma rebuildBiomePool_absent name weights :
  name ∉ weights.*1 ->
  filter (fun x => x = name) (rebuildBiomePool weights) = [].
Proof.
  induction weights as [|[n w] rest IH]; intros Hn; [reflexivity|].
  simpl in Hn. apply not_elem_of_cons in Hn as [Hne Hn].
  rewrite rebuildBiomePool_cons, filter_app, (IH Hn), app_nil_r.
  apply replicate_filter_other. congruence.
Qed.

(** X8. [rebuildBiomePool] puts each biome into the pool as many times
    as its weight says (not at all for a weight of zero or less), and
    no name that is not a key of the weights object. *)
Theorem rebuildBiomePool_counts weights name w :
  NoDup weights.*1 ->
  ((name, w) ∈ weights ->
     length (filter (fun x => x = name) (rebuildBiomePool weights)) = Z.to_nat w)
  /\ (name ∉ weights.*1 -> name ∉ rebuildBiomePool weights).
Proof.
  intros Hnd. split.
  - induction weights as [|[n w'] rest IH]; intros Hin; [inversion Hin|].
    simpl in Hnd. apply NoDup_cons in Hnd as [Hfresh Hnd].
    rewrite rebuildBiomePool_cons, filter_app, length_app.
    apply elem_of_cons in Hin as [Heq|Hin].
    + injection Heq as -> ->.
      rewrite replicate_filter_same, length_replicate.
      rewrite rebuildBiomePool_absent by exact Hfresh. simpl. lia.
    + assert (Hne : n <> name).
      { intros ->. apply Hfresh. apply list_elem_of_fmap. exists (name, w). auto. }
      rewrite replicate_filter_other by exact Hne.
      simpl. apply IH; assumption.
  - intros Habs Hin.
    assert (Hin' : name ∈ filter (fun x => x = name) (rebuildBiomePool weights))
      by (apply list_elem_of_filter; auto).
    rewrite rebuildBiomePool_absent in Hin' by exact Habs. inversion Hin'.
Qed.

Lemma rebuildBiomePool_counts_witness :
  NoDup DEFAULT_BIOME_WEIGHTS.*1
  /\ ("forest", 3) ∈ DEFAULT_BIOME_WEIGHTS
  /\ length (filter (fun x => x = "forest") (rebuildBiomePool DEFAULT_BIOME_WEIGHTS))
     = Z.to_nat 3.
Proof.
  assert (H1 : NoDup DEFAULT_BIOME_WEIGHTS.*1)
    by (apply (bool_decide_unpack _); vm_compute; exact I).
  assert (H2 : ("forest", 3) ∈ DEFAULT_BIOME_WEIGHTS) by apply list_elem_of_here.
  split; [exact H1|]. split; [exact H2|].
  exact (proj1 (rebuildBiomePool_counts DEFAULT_BIOME_WEIGHTS "forest" 3 H1) H2).
Defined.

Lemma call_fresh_generator seed x z rng :
  exists rng2,
    call (snd (createPositionRandom seed x z rng)) (fst (createPositionRandom seed x z rng))
    = (rng2, RNumber (position_stream seed x z 0))
    /\ globalWorldSeed rng2 = globalWorldSeed rng.
Proof.
  unfold call. rewrite createPositionRandom_cell.
  unfold position_stream, mulberry32_output. cbn [mulberry32_state].
  destruct (mulberry32_step (hashPosition seed x z)) as [s' v].
  eexists. split; reflexivity.
Qed.

(** A lookup that misses the cache computes the biome afresh and
    stores it under the key. *)
Lemma getBiomeForCell_miss cx cz rng b :
  biomeCache b !! (cell_seed rng, cx, cz) = None ->
  (getBiomeForCell cx cz rng b).2
  = biome_of (BIOME_POOL b) (cell_seed rng) cx cz
  /\ BIOME_POOL (getBiomeForCell cx cz rng b).1.2 = BIOME_POOL b
  /\ biomeCache (getBiomeForCell cx cz rng b).1.2
     = <[(cell_seed rng, cx, cz) := biome_of (BIOME_POOL b) (cell_seed rng) cx cz]>
         (biomeCache b)
  /\ getWorldSeed (getBiomeForCell cx cz rng b).1.1 = getWorldSeed rng.
Proof.
  intros Hmiss. unfold getBiomeForCell. rewrite Hmiss.
  destruct (call_fresh_generator (cell_seed rng) (JSNum.mul cx 1000)
              (JSNum.mul cz 1000) rng) as (rng2 & Hc & Hs).
  destruct (createPositionRandom _ _ _ rng) as [rng1 g]. cbn [fst snd] in Hc.
  rewrite Hc. cbn [fst snd BIOME_POOL biomeCache]. unfold getWorldSeed, biome_of.
  split; [reflexivity|]. split; [reflexivity|]. split; [reflexivity | exact Hs].
Qed.

Lemma getBiomeForCell_hit cx cz rng b v :
  biomeCache b !! (cell_seed rng, cx, cz) = Some v ->
  getBiomeForCell cx cz rng b = (rng, b, v).
Proof. intros H. unfold getBiomeForCell. now rewrite H. Qed.

Lemma getBiomeForCell_coherent cx cz rng b :
  cache_coherent b ->
  (getBiomeForCell cx cz rng b).2 = biome_of (BIOME_POOL b) (cell_seed rng) cx cz
  /\ cache_coherent (getBiomeForCell cx cz rng b).1.2
  /\ BIOME_POOL (getBiomeForCell cx cz rng b).1.2 = BIOME_POOL b
  /\ cell_seed (getBiomeForCell cx cz rng b).1.1 = cell_seed rng.
Proof.
  intros Hco.
  destruct (biomeCache b !! (cell_seed rng, cx, cz)) as [v|] eqn:Hk.
  - rewrite (getBiomeForCell_hit _ _ _ _ _ Hk). cbn.
    split; [apply (Hco _ _ _ _ Hk) | auto].
  - destruct (getBiomeForCell_miss cx cz rng b Hk) as (Hr & Hp & Hc & Hs).
    split; [exact Hr|]. split; [|split; [exact Hp|]].
    + intros seed cx' cz' v. rewrite Hc, Hp.
      destruct (decide ((cell_seed rng, cx, cz) = (seed, cx', cz'))) as [E|Hne].
      * injection E as <- <- <-. rewrite lookup_insert_eq. congruence.
      * rewrite lookup_insert_ne by exact Hne. apply Hco.
    + unfold cell_seed. now rewrite Hs.
Qed.

Lemma exec_coherent o st :
  cache_coherent st.2 -> cache_coherent (Biomes.exec o st).2.
Proof.
  destruct st as [rng b]. intros Hco. destruct o as [cx cz | cfg | | seed |]; simpl.
  - apply (getBiomeForCell_coherent cx cz rng b Hco).
  - destruct cfg as [cfg|]; [|exact Hco]. intros seed cx cz v H.
    simpl in H. rewrite lookup_empty in H. discriminate.
  - intros seed cx cz v H. simpl in H. rewrite lookup_empty in H. discriminate.
  - exact Hco.
  - exact Hco.
Qed.

Lemma run_coherent ops : forall st,
  cache_coherent st.2 -> cache_coherent (Biomes.run ops st).2.
Proof.
  induction ops as [|o ops IH]; intros st Hco; [exact Hco|].
  apply IH, exec_coherent, Hco.
Qed.

Lemma initial_coherent : cache_coherent Biomes.initial.
Proof. intros seed cx cz v H. simpl in H. rewrite lookup_empty in H. discriminate. Qed.

(** X9. The biome cache never answers with a stale biome: after any
    sequence of lookups, [setBiomeConfig], [resetBiomes],
    [setRandomSeed] and [resetRandom] calls since the modules loaded,
    [getBiomeForCell] returns exactly what a fresh computation from the
    current pool and the current seed gives. *)
Theorem biome_cache_is_transparent ops rng cx cz :
  (getBiomeForCell cx cz (Biomes.run ops (rng, Biomes.initial)).1
                         (Biomes.run ops (rng, Biomes.initial)).2).2
  = biome_of (BIOME_POOL (Biomes.run ops (rng, Biomes.initial)).2)
             (cell_seed (Biomes.run ops (rng, Biomes.initial)).1) cx cz.
Proof.
  apply getBiomeForCell_coherent.
  apply (run_coherent ops (rng, Biomes.initial)), initial_coherent.
Qed.

Lemma biome_of_member pool seed cx cz :
  pool <> [] ->
  exists name, biome_of pool seed cx cz = Some name /\ name ∈ pool.
Proof.
  intros Hne. unfold biome_of, position_stream, mulberry32_output.
  cbn [mulberry32_state].
  assert (Hlen : 0 < Z.of_nat (length pool)) by (destruct pool; [congruence | simpl; lia]).
  pose proof (scaled_index_range
                (hashPosition seed (JSNum.mul cx 1000) (JSNum.mul cz 1000)) _ Hlen) as Hi.
  set (i := Qfloor _) in *.
  unfold JSNum.index. destruct (Z.ltb_spec i 0); [lia|].
  destruct (lookup_lt_is_Some_2 pool (Z.to_nat i) ltac:(lia)) as [x Hx].
  exists x. split; [exact Hx|]. apply list_elem_of_lookup. eauto.
Qed.

(** X10. Whatever the seed, the cell and the history of the modules,
    [getBiomeForCell] returns a name from the current pool when the
    pool is not empty, and [undefined] when a custom configuration has
    emptied it. *)
Theorem getBiomeForCell_in_pool ops rng cx cz :
  (BIOME_POOL (Biomes.run ops (rng, Biomes.initial)).2 <> [] ->
     exists name,
       (getBiomeForCell cx cz (Biomes.run ops (rng, Biomes.initial)).1
                              (Biomes.run ops (rng, Biomes.initial)).2).2 = Some name
       /\ name ∈ BIOME_POOL (Biomes.run ops (rng, Biomes.initial)).2)
  /\ (BIOME_POOL (Biomes.run ops (rng, Biomes.initial)).2 = [] ->
      (getBiomeForCell cx cz (Biomes.run ops (rng, Biomes.initial)).1
                             (Biomes.run ops (rng, Biomes.initial)).2).2 = None).
Proof.
  assert (Hco : cache_coherent (Biomes.run ops (rng, Biomes.initial)).2)
    by (apply (run_coherent ops (rng, Biomes.initial)), initial_coherent).
  destruct (getBiomeForCell_coherent cx cz
              (Biomes.run ops (rng, Biomes.initial)).1 _ Hco) as (Hr & _).
  rewrite Hr. split.
  - apply biome_of_member.
  - intros ->. unfold biome_of, JSNum.mul_unit, JSNum.index. cbn [length].
    rewrite Z.mul_0_r. change (JS.round_double 0) with 0.
    unfold Qfloor. rewrite Z.div_0_l by lia. reflexivity.
Qed.

Lemma getBiomeForCell_in_pool_witness :
  BIOME_POOL (Biomes.run [OpSetRandomSeed 777; OpGetBiomeForCell 0 0]
                (Rng.initial, Biomes.initial)).2 <> []
  /\ exists name,
      (getBiomeForCell 2 (-3)
         (Biomes.run [OpSetRandomSeed 777; OpGetBiomeForCell 0 0]
            (Rng.initial, Biomes.initial)).1
         (Biomes.run [OpSetRandomSeed 777; OpGetBiomeForCell 0 0]
            (Rng.initial, Biomes.initial)).2).2 = Some name
      /\ name ∈ BIOME_POOL (Biomes.run [OpSetRandomSeed 777; OpGetBiomeForCell 0 0]
                              (Rng.initial, Biomes.initial)).2.
Proof.
  assert (H : BIOME_POOL (Biomes.run [OpSetRandomSeed 777; OpGetBiomeForCell 0 0]
                            (Rng.initial, Biomes.initial)).2 <> [])
    by (vm_compute; discriminate).
  split; [exact H|].
  exact (proj1 (getBiomeForCell_in_pool [OpSetRandomSeed 777; OpGetBiomeForCell 0 0]
                  Rng.initial 2 (-3)) H).
Defined.

End BiomeSelection.

(** ** Runs of position broadcasts *)

Section BroadcastRuns.

Import Multiplayer Session.

Lemma broadcastPosition_cases a now m :
  (broadcastPosition a now m = (m, []))
  \/ (exists payload,
        broadcastPosition a now m
        = (set_lastBroadcastTime now m, [ChannelSendPlayerMove payload])
        /\ mv_timestamp payload = now
        /\ BROADCAST_THROTTLE_MS <= now - lastBroadcastTime m
        /\ channel m <> None).
Proof.
  unfold broadcastPosition. destruct (channel m) eqn:Hc; [|left; reflexivity].
  destruct (Z.ltb_spec (now - lastBroadcastTime m) BROADCAST_THROTTLE_MS);
    [left; reflexivity|].
  right. eexists. repeat split; [assumption | congruence].
Qed.

(** X11. However [broadcastPosition] is called, and whatever the clock
    does between calls, any two consecutive position messages that go
    out carry timestamps at least 50 ms apart, the first one at least
    50 ms after the last send before the run. *)
Theorem broadcast_sends_are_spaced calls : forall m,
  spaced BROADCAST_THROTTLE_MS (lastBroadcastTime m)
    (send_times (snd (broadcast_all calls m))).
Proof.
  induction calls as [|[a now] calls IH]; intros m; [exact I|].
  cbn [broadcast_all].
  destruct (broadcastPosition_cases a now m) as [-> | (p & -> & Ht & Hgap & _)].
  - specialize (IH m). destruct (broadcast_all calls m) as [m2 evs2]. exact IH.
  - specialize (IH (set_lastBroadcastTime now m)).
    destruct (broadcast_all calls (set_lastBroadcastTime now m)) as [m2 evs2].
    cbn [snd app send_times List.flat_map] in *. rewrite Ht.
    split; [exact Hgap | exact IH].
Qed.

Lemma broadcast_all_closed calls : forall m,
  channel m = None -> broadcast_all calls m = (m, []).
Proof.
  induction calls as [|[a now] calls IH]; intros m Hc; [reflexivity|].
  cbn [broadcast_all]. unfold broadcastPosition. rewrite Hc.
  now rewrite (IH m Hc).
Qed.

(** X12. [leave] is safe to repeat and final for sending: a second
    [leave] does nothing at all, and after [leave] no call of
    [broadcastPosition] sends anything or changes the manager. *)
Theorem leave_is_idempotent m calls :
  leave (fst (leave m)) = (fst (leave m), [])
  /\ broadcast_all calls (fst (leave m)) = (fst (leave m), []).
Proof.
  split.
  - unfold leave at 1. now rewrite leave_closes_channel.
  - apply broadcast_all_closed, leave_closes_channel.
Qed.

End BroadcastRuns.

(** ** Sequences of presence events *)

Section PresenceRuns.

Import Multiplayer Session.

Lemma joins_for_app q evs1 evs2 :
  joins_for q (evs1 ++ evs2) = (joins_for q evs1 + joins_for q evs2)%nat.
Proof. unfold joins_for. now rewrite List.filter_app, length_app. Qed.

Lemma sync_loop_for_each now state l : forall m,
  sync_loop now state l m = for_each (sync_one now state) l m.
Proof.
  induction l as [|pid l IH]; intros m; [reflexivity|].
  cbn [sync_loop for_each]. destruct (sync_one now state pid m) as [m1 e1].
  now rewrite IH.
Qed.

Lemma delayed_loop_for_each now state l : forall m,
  delayed_loop now state l m = for_each (delayed_one now state) l m.
Proof.
  induction l as [|pid l IH]; intros m; [reflexivity|].
  cbn [delayed_loop for_each]. destruct (delayed_one now state pid m) as [m1 e1].
  now rewrite IH.
Qed.

Lemma sync_one_spawn_step now state : spawn_step (sync_one now state).
Proof.
  intros pid m. unfold sync_one.
  destruct (bool_decide (playerId m = Some pid)) eqn:Hown.
  { left. exists []. auto. }
  apply bool_decide_eq_false in Hown.
  destruct (STALE_THRESHOLD <? _).
  { left. exists []. auto. }
  destruct (bool_decide (pid ∈ spawnedPlayers m)) eqn:Hsp; cbn [negb].
  - left. destruct (onPlayerPresenceUpdate m).
    + eexists. split; [reflexivity|]. split; [reflexivity|].
      split; [congruence|]. intros q Hq. unfold calls_for.
      rewrite filter_cons_False; [reflexivity | simpl; congruence].
    + exists []. auto.
  - right. apply bool_decide_eq_false in Hsp. eauto.
Qed.

Lemma delayed_one_spawn_step now state : spawn_step (delayed_one now state).
Proof.
  intros pid m. unfold delayed_one.
  destruct (bool_decide (playerId m = Some pid)) eqn:Hown; cbn [negb andb].
  { left. exists []. auto. }
  apply bool_decide_eq_false in Hown.
  destruct (bool_decide (pid ∈ spawnedPlayers m)) eqn:Hsp; cbn [negb].
  { left. exists []. auto. }
  apply bool_decide_eq_false in Hsp.
  destruct (STALE_THRESHOLD <? _).
  { left. exists []. auto. }
  right. eauto.
Qed.

Lemma join_spawn_step newPresences now :
  spawn_step (fun key m => on_presence_join key newPresences now m).
Proof.
  intros pid m. unfold on_presence_join.
  destruct (bool_decide (playerId m = Some pid)) eqn:Hown; cbn [negb andb].
  { left. exists []. auto. }
  apply bool_decide_eq_false in Hown.
  destruct (bool_decide (pid ∈ spawnedPlayers m)) eqn:Hsp; cbn [negb].
  { left. exists []. auto. }
  apply bool_decide_eq_false in Hsp.
  destruct (300000 <? _).
  { left. exists []. auto. }
  right. eauto.
Qed.

Lemma join_budget_spawned q m : q ∈ spawnedPlayers m -> join_budget q m = 0%nat.
Proof. intros H. unfold join_budget. now rewrite bool_decide_eq_true_2. Qed.

Lemma join_budget_unspawned q m : q ∉ spawnedPlayers m -> join_budget q m = 1%nat.
Proof. intros H. unfold join_budget. now rewrite bool_decide_eq_false_2. Qed.

Lemma join_budget_le_1 q m : (join_budget q m <= 1)%nat.
Proof. unfold join_budget. destruct (bool_decide _); lia. Qed.

(** What a step does to one peer [q]: the join callbacks it makes for
    [q] are paid for by [q] entering the spawned set; the identity and
    the channel are untouched; the local peer is never spawned. *)
Lemma spawn_step_effect step pid m q :
  spawn_step step ->
  (joins_for q (step pid m).2 + join_budget q (step pid m).1 <= join_budget q m)%nat
  /\ playerId (step pid m).1 = playerId m
  /\ channel (step pid m).1 = channel m
  /\ (playerId m = Some q -> q ∉ spawnedPlayers m ->
        (q ∉ spawnedPlayers (step pid m).1) /\ calls_for q (step pid m).2 = [])
  /\ (q ∈ spawnedPlayers m -> q ∈ spawnedPlayers (step pid m).1).
Proof.
  intros Hstep.
  destruct (Hstep pid m) as [(evs & -> & Hj & Hown & Hoth) | (Hsp & Hnot & pd & ->)];
    cbn [fst snd].
  - rewrite Hj. split; [lia|]. split; [reflexivity|]. split; [reflexivity|].
    split; [|auto]. intros Hq Hnq. split; [exact Hnq|].
    destruct (decide (q = pid)) as [->|Hne]; [now rewrite Hown | now apply Hoth].
  - split; [|split; [reflexivity|split; [reflexivity|split]]].
    + destruct (decide (q = pid)) as [->|Hne].
      * rewrite (join_budget_unspawned pid m Hsp).
        rewrite join_budget_spawned
          by (unfold set_spawnedPlayers; cbn [spawnedPlayers];
              apply elem_of_union_l, elem_of_singleton_2; reflexivity).
        destruct (onPlayerJoin m); unfold joins_for; simpl; [|lia].
        destruct (bool_decide (pid = pid)); simpl; lia.
      * assert (Hj : joins_for q (if onPlayerJoin m
                                  then [CallOnPlayerJoin pid pd] else []) = 0%nat).
        { destruct (onPlayerJoin m); [|reflexivity]. unfold joins_for. simpl.
          rewrite bool_decide_eq_false_2 by congruence. reflexivity. }
        rewrite Hj. unfold join_budget, set_spawnedPlayers. cbn [spawnedPlayers].
        destruct (decide (q ∈ spawnedPlayers m)) as [Hin|Hnin].
        -- rewrite !bool_decide_eq_true_2; [lia | exact Hin | apply elem_of_union_r, Hin].
        -- rewrite !bool_decide_eq_false_2; [lia | exact Hnin |].
           rewrite elem_of_union, elem_of_singleton. tauto.
    + intros Hq Hnq. assert (Hne : q <> pid) by congruence.
      unfold set_spawnedPlayers. cbn [spawnedPlayers]. split.
      * rewrite elem_of_union, elem_of_singleton. tauto.
      * destruct (onPlayerJoin m); [|reflexivity]. unfold calls_for.
        rewrite filter_cons_False; [reflexivity | simpl; congruence].
    + intros Hin. unfold set_spawnedPlayers. cbn [spawnedPlayers].
      apply elem_of_union_r, Hin.
Qed.

Lemma for_each_effect step l q : forall m,
  spawn_step step ->
  (joins_for q (for_each step l m).2 + join_budget q (for_each step l m).1
   <= join_budget q m)%nat
  /\ playerId (for_each step l m).1 = playerId m
  /\ channel (for_each step l m).1 = channel m
  /\ (playerId m = Some q -> q ∉ spawnedPlayers m ->
        (q ∉ spawnedPlayers (for_each step l m).1)
        /\ calls_for q (for_each step l m).2 = [])
  /\ (q ∈ spawnedPlayers m -> q ∈ spawnedPlayers (for_each step l m).1).
Proof.
  induction l as [|pid l IH]; intros m Hstep.
  - cbn. split; [lia|]. auto.
  - cbn [for_each].
    destruct (spawn_step_effect step pid m q Hstep) as (Hb & Hp & Hc & Hown & Hmono).
    destruct (step pid m) as [m1 e1]. cbn [fst snd] in *.
    destruct (IH m1 Hstep) as (Hb' & Hp' & Hc' & Hown' & Hmono').
    destruct (for_each step l m1) as [m2 e2]. cbn [fst snd] in *.
    rewrite joins_for_app, calls_for_app.
    split; [lia|]. split; [congruence|]. split; [congruence|]. split.
    + intros Hq Hnq. destruct (Hown Hq Hnq) as [H1 H2].
      destruct (Hown' ltac:(congruence) H1) as [H3 H4].
      split; [exact H3 | now rewrite H2, H4].
    + auto.
Qed.

(** The four presence handlers, seen from one peer [q]. *)
Lemma deliver_effect e m q :
  (joins_for q (deliver e m).2 + join_budget q (deliver e m).1
   <= join_budget q m + (if is_leave_of q e then 1 else 0))%nat
  /\ playerId (deliver e m).1 = playerId m
  /\ (playerId m = Some q -> q ∉ spawnedPlayers m ->
        (q ∉ spawnedPlayers (deliver e m).1) /\ calls_for q (deliver e m).2 = []).
Proof.
  destruct e as [state now | key ps now | key | state now]; cbn [deliver is_leave_of].
  - unfold on_presence_sync. rewrite sync_loop_for_each.
    destruct (for_each_effect (sync_one now state) (keys state) q m
                (sync_one_spawn_step now state)) as (Hb & Hp & _ & Hown & _).
    split; [lia | auto].
  - destruct (spawn_step_effect _ key m q (join_spawn_step ps now))
      as (Hb & Hp & _ & Hown & _).
    split; [lia | auto].
  - unfold on_presence_leave. cbn [fst snd].
    split; [|split; [reflexivity|]].
    + assert (Hj : joins_for q (if onPlayerLeave m && negb (bool_decide (playerId m = Some key))
                                then [CallOnPlayerLeave key] else []) = 0%nat)
        by (destruct (_ && _); reflexivity).
      rewrite Hj. pose proof (join_budget_le_1 q (set_spawnedPlayers (spawnedPlayers m ∖ {[key]}) m)).
      destruct (bool_decide (key = q)) eqn:Hk; [lia|].
      apply bool_decide_eq_false in Hk.
      unfold join_budget, set_spawnedPlayers. cbn [spawnedPlayers].
      destruct (decide (q ∈ spawnedPlayers m)) as [Hin|Hnin].
      * rewrite !bool_decide_eq_true_2; [lia | exact Hin |].
        rewrite elem_of_difference, elem_of_singleton. split; [exact Hin | congruence].
      * rewrite !bool_decide_eq_false_2; [lia | exact Hnin |].
        rewrite elem_of_difference. tauto.
    + intros Hq Hnq. unfold set_spawnedPlayers. cbn [spawnedPlayers]. split.
      * rewrite elem_of_difference. tauto.
      * destruct (onPlayerLeave m); [|reflexivity]. cbn [andb].
        destruct (bool_decide (playerId m = Some key)) eqn:Hk; [reflexivity|].
        apply bool_decide_eq_false in Hk. cbn [negb]. unfold calls_for.
        rewrite filter_cons_False; [reflexivity | simpl; congruence].
  - unfold delayed_sync. destruct (channel m).
    + rewrite delayed_loop_for_each.
      destruct (for_each_effect (delayed_one now state) (keys state) q m
                  (delayed_one_spawn_step now state)) as (Hb & Hp & _ & Hown & _).
      split; [lia | auto].
    + cbn [fst snd]. split; [unfold joins_for; simpl; lia|].
      split; [reflexivity|]. intros _ Hnq. split; [exact Hnq | reflexivity].
Qed.

(** X13. The local peer never spawns itself: through any sequence of
    sync, join, leave and delayed-check events its own id stays out of
    the spawned set, and no join, update or leave callback is invoked
    for it. *)
Theorem own_id_is_never_spawned es : forall m me,
  playerId m = Some me ->
  me ∉ spawnedPlayers m ->
  (me ∉ spawnedPlayers (deliver_all es m).1)
  /\ calls_for me (deliver_all es m).2 = [].
Proof.
  induction es as [|e es IH]; intros m me Hme Hn; [cbn; auto|].
  cbn [deliver_all].
  destruct (deliver_effect e m me) as (_ & Hp & Hown).
  destruct (Hown Hme Hn) as [H1 H2].
  destruct (deliver e m) as [m1 e1]. cbn [fst snd] in *.
  destruct (IH m1 me ltac:(congruence) H1) as [H3 H4].
  destruct (deliver_all es m1) as [m2 e2]. cbn [fst snd] in *.
  split; [exact H3|]. now rewrite calls_for_app, H2, H4.
Qed.

(** X14. No duplicate joins: over any sequence of sync, join, leave
    and delayed-check events, the join callback is invoked for a peer
    at most once more than that peer's leave events were delivered, and
    not even that once if the peer was spawned at the start. *)
Theorem joins_bounded_by_leaves es : forall m pid,
  (joins_for pid (deliver_all es m).2 + join_budget pid (deliver_all es m).1
   <= join_budget pid m + leaves_of pid es)%nat.
Proof.
  induction es as [|e es IH]; intros m pid; [cbn; lia|].
  cbn [deliver_all].
  destruct (deliver_effect e m pid) as (Hb & _ & _).
  destruct (deliver e m) as [m1 e1]. cbn [fst snd] in *.
  specialize (IH m1 pid).
  destruct (deliver_all es m1) as [m2 e2]. cbn [fst snd] in *.
  rewrite joins_for_app. unfold leaves_of in *. cbn [List.filter].
  destruct (is_leave_of pid e); cbn [length]; lia.
Qed.

Lemma own_id_is_never_spawned_witness :
  playerId Sample.joined = Some "player_me"
  /\ ("player_me" ∉ spawnedPlayers Sample.joined)
  /\ ("player_me"
        ∉ spawnedPlayers
            (deliver_all
               [PSync [("player_me", [Sample.fresh_peer]); ("p2", [Sample.fresh_peer])]
                  Sample.now;
                PJoin "player_me" [Sample.fresh_peer] Sample.now;
                PLeave "player_me"]
               Sample.joined).1).
Proof.
  assert (H1 : playerId Sample.joined = Some "player_me") by reflexivity.
  assert (H2 : "player_me" ∉ spawnedPlayers Sample.joined)
    by (apply (bool_decide_unpack _); vm_compute; exact I).
  split; [exact H1|]. split; [exact H2|].
  exact (proj1 (own_id_is_never_spawned _ Sample.joined "player_me" H1 H2)).
Defined.

Lemma for_each_only_listed step l q : forall m,
  spawn_step step ->
  q ∈ spawnedPlayers (for_each step l m).1 ->
  q ∈ spawnedPlayers m \/ q ∈ l.
Proof.
  induction l as [|pid l IH]; intros m Hstep Hin; [left; exact Hin|].
  cbn [for_each] in Hin.
  destruct (Hstep pid m) as [(evs & E & _) | (_ & _ & pd & E)]; rewrite E in Hin.
  - destruct (for_each step l m) as [m2 e2] eqn:E2. cbn [fst] in Hin.
    destruct (IH m Hstep ltac:(rewrite E2; exact Hin)) as [H|H];
      [left; exact H | right; right; exact H].
  - destruct (for_each step l _) as [m2 e2] eqn:E2. cbn [fst] in Hin.
    destruct (IH _ Hstep ltac:(rewrite E2; exact Hin)) as [H|H]; [|right; right; exact H].
    unfold set_spawnedPlayers in H. cbn [spawnedPlayers] in H.
    apply elem_of_union in H as [H|H]; [|left; exact H].
    apply elem_of_singleton in H. subst. right. left.
Qed.

Lemma sync_one_fresh_spawns now state pid m :
  playerId m <> Some pid ->
  now - sync_lastActive (first_presence state pid) <= STALE_THRESHOLD ->
  pid ∈ spawnedPlayers (sync_one now state pid m).1.
Proof.
  intros Hown Hfresh. unfold sync_one.
  rewrite bool_decide_eq_false_2 by exact Hown.
  destruct (Z.ltb_spec STALE_THRESHOLD (now - sync_lastActive (first_presence state pid)));
    [lia|].
  destruct (bool_decide (pid ∈ spawnedPlayers m)) eqn:Hsp; cbn [negb].
  - apply bool_decide_eq_true in Hsp.
    destruct (onPlayerPresenceUpdate m); exact Hsp.
  - unfold set_spawnedPlayers. cbn [fst spawnedPlayers].
    apply elem_of_union_l, elem_of_singleton_2. reflexivity.
Qed.

Lemma sync_loop_spawns_fresh state now m pid :
  pid ∈ keys state ->
  playerId m <> Some pid ->
  now - sync_lastActive (first_presence state pid) <= STALE_THRESHOLD ->
  pid ∈ spawnedPlayers (sync_loop now state (keys state) m).1.
Proof.
  intros Hin Hown Hfresh.
  apply list_elem_of_split in Hin as (l1 & l2 & ->).
  rewrite sync_loop_app, sync_loop_cons. cbn [fst].
  rewrite !sync_loop_for_each.
  destruct (for_each_effect (sync_one now state) l1 pid m (sync_one_spawn_step now state))
    as (_ & Hp & _).
  set (m1 := (for_each (sync_one now state) l1 m).1) in *.
  apply (for_each_effect (sync_one now state) l2 pid _ (sync_one_spawn_step now state)).
  apply sync_one_fresh_spawns; [unfold fst in Hp; rewrite Hp; exact Hown | exact Hfresh].
Qed.

(** X15. After a sync, every roster peer other than the local one
    whose entry is fresh is in the spawned set, and the sync has added
    no peer that is not in the roster. *)
Theorem sync_spawns_the_fresh_roster state now m :
  (forall pid,
      pid ∈ keys state ->
      playerId m <> Some pid ->
      now - sync_lastActive (first_presence state pid) <= STALE_THRESHOLD ->
      pid ∈ spawnedPlayers (on_presence_sync state now m).1)
  /\ (forall q,
      q ∈ spawnedPlayers (on_presence_sync state now m).1 ->
      q ∈ spawnedPlayers m \/ q ∈ keys state).
Proof.
  unfold on_presence_sync. split.
  - intros pid. apply sync_loop_spawns_fresh.
  - intros q Hin. rewrite sync_loop_for_each in Hin.
    apply (for_each_only_listed _ _ _ _ (sync_one_spawn_step now state) Hin).
Qed.

Lemma sync_spawns_the_fresh_roster_witness :
  "p2" ∈ keys [("p1", [Sample.stale_peer]); ("p2", [Sample.fresh_peer])]
  /\ playerId Sample.joined <> Some "p2"
  /\ Sample.now
     - sync_lastActive
         (first_presence [("p1", [Sample.stale_peer]); ("p2", [Sample.fresh_peer])] "p2")
     <= STALE_THRESHOLD
  /\ "p2" ∈ spawnedPlayers
              (on_presence_sync [("p1", [Sample.stale_peer]); ("p2", [Sample.fresh_peer])]
                 Sample.now Sample.joined).1.
Proof.
  assert (H1 : "p2" ∈ keys [("p1", [Sample.stale_peer]); ("p2", [Sample.fresh_peer])])
    by (apply (bool_decide_unpack _); vm_compute; exact I).
  assert (H2 : playerId Sample.joined <> Some "p2") by discriminate.
  assert (H3 : Sample.now
     - sync_lastActive
         (first_presence [("p1", [Sample.stale_peer]); ("p2", [Sample.fresh_peer])] "p2")
     <= STALE_THRESHOLD) by (vm_compute; discriminate).
  do 3 (split; [assumption|]).
  exact (proj1 (sync_spawns_the_fresh_roster _ Sample.now Sample.joined) "p2" H1 H2 H3).
Defined.

Lemma delayed_loop_idle now state l m :
  (forall pid, pid ∈ l -> delayed_one now state pid m = (m, [])) ->
  delayed_loop now state l m = (m, []).
Proof.
  induction l as [|pid l IH]; intros H; [reflexivity|].
  cbn [delayed_loop]. rewrite (H pid) by left.
  rewrite IH; [reflexivity|]. intros q Hq. apply H. now right.
Qed.

(** X16. The delayed check only catches what a sync missed: run on the
    same roster at the same or a later clock reading, right after a
    sync, it spawns nobody and invokes no callback. *)
Theorem delayed_check_after_sync_is_idle state now now' m :
  channel m <> None ->
  now <= now' ->
  delayed_sync state now' (on_presence_sync state now m).1
  = ((on_presence_sync state now m).1, []).
Proof.
  intros Hc Hle.
  pose proof (sync_loop_spawns_fresh state now m) as Hall.
  unfold on_presence_sync in *. rewrite sync_loop_for_each in *.
  destruct (for_each_effect (sync_one now state) (keys state) "" m
              (sync_one_spawn_step now state)) as (_ & Hp & Hch & _).
  set (m' := (for_each (sync_one now state) (keys state) m).1) in *.
  unfold delayed_sync. destruct (channel m') eqn:Hc'; [|congruence].
  apply delayed_loop_idle. intros pid Hin. unfold delayed_one.
  destruct (bool_decide (playerId m' = Some pid)) eqn:Hown; [reflexivity|].
  apply bool_decide_eq_false in Hown.
  destruct (bool_decide (pid ∈ spawnedPlayers m')) eqn:Hsp; [reflexivity|].
  apply bool_decide_eq_false in Hsp. cbn [negb andb].
  rewrite join_lastActive_sync.
  destruct (Z.ltb_spec STALE_THRESHOLD (now' - sync_lastActive (first_presence state pid)));
    [reflexivity|].
  exfalso. apply Hsp. apply Hall; [exact Hin | congruence | lia].
Qed.

Lemma delayed_check_after_sync_is_idle_witness :
  channel Sample.joined <> None
  /\ Sample.now <= Sample.now + 500
  /\ delayed_sync [("p1", [Sample.stale_peer]); ("p2", [Sample.fresh_peer])]
       (Sample.now + 500)
       (on_presence_sync [("p1", [Sample.stale_peer]); ("p2", [Sample.fresh_peer])]
          Sample.now Sample.joined).1
     = ((on_presence_sync [("p1", [Sample.stale_peer]); ("p2", [Sample.fresh_peer])]
           Sample.now Sample.joined).1, []).
Proof.
  assert (H1 : channel Sample.joined <> None) by discriminate.
  assert (H2 : Sample.now <= Sample.now + 500) by lia.
  split; [exact H1|]. split; [exact H2|].
  exact (delayed_check_after_sync_is_idle _ Sample.now (Sample.now + 500)
           Sample.joined H1 H2).
Defined.

End PresenceRuns.

(** ** More on host arbitration *)

Section ArbitrationOutcomes.

Import Multiplayer.

Local Arguments generateWorldSeed : simpl never.

Lemma arbitrate_found_no_claim room pid others rnd sched (s : Store) w :
  apply_cmds (List.hd [] sched) s !! room = Some w ->
  bool_decide (length others = 0%nat) && owner_falsy (w_owner_player_id w) = false ->
  run (arbitrate room pid others rnd) sched s
  = (mkResolved (w_seed w) (bool_decide (w_owner_player_id w = Some pid)),
     apply_cmds (List.hd [] sched) s,
     [CSelect room]).
Proof.
  intros Hw Hb. unfold arbitrate. cbn [run].
  rewrite (select_single_found _ _ _ Hw), Hb. reflexivity.
Qed.

(** X17. A peer arriving at a room whose row exists and either has an
    owner or is observed with other peers in it sends no write at all:
    one read, the row's seed adopted, [isHost] true exactly when the
    row already names this peer as owner, the table untouched. *)
Theorem populated_room_is_read_only room pid others rnd env0 rest (s : Store) w :
  apply_cmds env0 s !! room = Some w ->
  others <> [] \/ owner_falsy (w_owner_player_id w) = false ->
  run (arbitrate room pid others rnd) (env0 :: rest) s
  = (mkResolved (w_seed w) (bool_decide (w_owner_player_id w = Some pid)),
     apply_cmds env0 s,
     [CSelect room]).
Proof.
  intros Hw Hcond.
  apply (arbitrate_found_no_claim room pid others rnd (env0 :: rest) s w Hw).
  destruct Hcond as [Hne | ->]; [|apply andb_false_r].
  destruct others; [congruence|]. reflexivity.
Qed.

Lemma populated_room_is_read_only_witness :
  apply_cmds [CUpdateOwner "portal" "player_b"] Sample.unowned !! "portal"
  = Some (mkWorld 424242 (Some "player_b") "Untitled World")
  /\ ([] <> @nil string
      \/ owner_falsy (w_owner_player_id (mkWorld 424242 (Some "player_b") "Untitled World"))
         = false)
  /\ run (arbitrate "portal" "player_me" [] (1 # 2))
       ([CUpdateOwner "portal" "player_b"] :: []) Sample.unowned
     = (mkResolved 424242 false,
        apply_cmds [CUpdateOwner "portal" "player_b"] Sample.unowned,
        [CSelect "portal"]).
Proof.
  assert (H1 : apply_cmds [CUpdateOwner "portal" "player_b"] Sample.unowned !! "portal"
               = Some (mkWorld 424242 (Some "player_b") "Untitled World"))
    by (vm_compute; reflexivity).
  assert (H2 : [] <> @nil string
      \/ owner_falsy (w_owner_player_id (mkWorld 424242 (Some "player_b") "Untitled World"))
         = false) by (right; reflexivity).
  split; [exact H1|]. split; [exact H2|].
  exact (populated_room_is_read_only "portal" "player_me" [] (1 # 2)
           [CUpdateOwner "portal" "player_b"] [] Sample.unowned _ H1 H2).
Defined.

(** The three ways an arbitration can end, with the table it leaves. *)
Lemma arbitrate_outcome room pid others rnd sched (s : Store) :
  exists w,
    (run (arbitrate room pid others rnd) sched s).1.2 !! room = Some w
    /\ w_seed w = r_worldSeed (run (arbitrate room pid others rnd) sched s).1.1
    /\ (r_isHost (run (arbitrate room pid others rnd) sched s).1.1 = true ->
        w_owner_player_id w = Some pid).
Proof.
  unfold arbitrate. cbn [run].
  set (s0 := apply_cmds (List.hd [] sched) s).
  destruct (s0 !! room) as [w|] eqn:H0.
  - rewrite (select_single_found _ _ _ H0).
    destruct (bool_decide (length others = 0%nat) && owner_falsy (w_owner_player_id w)).
    + cbn [run fst snd].
      destruct (apply_cmds_keeps_seed (List.hd [] (List.tl sched)) s0 room w H0)
        as (w1 & H1 & E1).
      exists (set_owner pid w1). rewrite (update_owner_lookup _ _ _ _ _ H1).
      rewrite decide_True by reflexivity. cbn. auto.
    + cbn [run fst snd]. exists w. split; [exact H0|]. split; [reflexivity|].
      intros Hh. now apply bool_decide_eq_true in Hh.
  - rewrite (select_single_missing _ _ H0). cbn [run].
    set (s1 := apply_cmds (List.hd [] (List.tl sched)) s0).
    destruct (s1 !! room) as [w1|] eqn:H1.
    + rewrite (insert_world_refused _ _ _ _ H1). cbn [run].
      destruct (apply_cmds_keeps_seed (List.hd [] (List.tl (List.tl sched))) s1 room w1 H1)
        as (rw & Hrw & _).
      rewrite (select_single_found _ _ _ Hrw). cbn [run fst snd r_worldSeed r_isHost].
      exists rw. split; [exact Hrw|]. split; [reflexivity | discriminate].
    + rewrite (insert_world_accepted _ _ _ H1). cbn [run fst snd r_worldSeed r_isHost].
      eexists. rewrite lookup_insert_eq. split; [reflexivity|]. cbn. auto.
Qed.

(** With no request failing, the table answers as in [run]. *)
Lemma run_faulty_no_failure {A} (p : Proc A) : forall sched (s : Store),
  Faults.no_failure sched = true ->
  Faults.run_faulty p sched s = run p sched.*1 s.
Proof.
  induction p as [a | id k IH | id owner k IH | id row k IH]; intros sched s Hok.
  - destruct sched as [|[env f] rest]; reflexivity.
  - destruct sched as [|[env f] rest].
    + cbn [Faults.run_faulty run List.hd List.tl fmap list_fmap].
      rewrite (IH _ [] _ Hok). reflexivity.
    + cbn [Faults.no_failure forallb snd] in Hok.
      apply andb_true_iff in Hok as [Hf Hok]. apply negb_true_iff in Hf. subst f.
      cbn [Faults.run_faulty run List.hd List.tl fmap list_fmap fst].
      rewrite (IH _ rest _ Hok). reflexivity.
  - destruct sched as [|[env f] rest].
    + cbn [Faults.run_faulty run List.hd List.tl fmap list_fmap].
      rewrite (IH _ [] _ Hok). reflexivity.
    + cbn [Faults.no_failure forallb snd] in Hok.
      apply andb_true_iff in Hok as [Hf Hok]. apply negb_true_iff in Hf. subst f.
      cbn [Faults.run_faulty run List.hd List.tl fmap list_fmap fst].
      rewrite (IH _ rest _ Hok). reflexivity.
  - destruct sched as [|[env f] rest].
    + cbn [Faults.run_faulty run List.hd List.tl fmap list_fmap].
      destruct (insert_world id row (apply_cmds [] s)) as [s1 err].
      rewrite (IH _ [] _ Hok). reflexivity.
    + cbn [Faults.no_failure forallb snd] in Hok.
      apply andb_true_iff in Hok as [Hf Hok]. apply negb_true_iff in Hf. subst f.
      cbn [Faults.run_faulty run List.hd List.tl fmap list_fmap fst].
      destruct (insert_world id row (apply_cmds env s)) as [s1 err].
      rewrite (IH _ rest _ Hok). reflexivity.
Qed.

(** X18. When none of its requests fails, whatever other peers write
    while it runs, an arbitration ends with the room's row present in
    the table and with the row's seed as the adopted seed: what [init]
    reports is what the table holds. The premise is needed: when the
    first read finds no row or fails, and the insert and the re-read
    both fail, [init] ends with the seed it drew itself and [isHost]
    true, having changed nothing in the table. *)
Theorem adopted_seed_is_the_stored_seed room pid others rnd (s : Store) :
  (forall sched,
      Faults.no_failure sched = true ->
      exists w,
        (Faults.run_faulty (arbitrate room pid others rnd) sched s).1.2 !! room = Some w
        /\ w_seed w
           = r_worldSeed (Faults.run_faulty (arbitrate room pid others rnd) sched s).1.1)
  /\ (forall env0 f0 env1 env2,
      f0 = true \/ apply_cmds env0 s !! room = None ->
      Faults.run_faulty (arbitrate room pid others rnd)
        [(env0, f0); (env1, true); (env2, true)] s
      = (mkResolved (generateWorldSeed rnd) true,
         apply_cmds env2 (apply_cmds env1 (apply_cmds env0 s)),
         [CSelect room;
          CInsert room (mkWorld (generateWorldSeed rnd) (Some pid) "Untitled World");
          CSelect room])).
Proof.
  split.
  - intros sched Hok. rewrite (run_faulty_no_failure _ sched s Hok).
    destruct (arbitrate_outcome room pid others rnd sched.*1 s) as (w & H1 & H2 & _).
    eauto.
  - intros env0 f0 env1 env2 H.
    assert (Hresp : (if f0 then (None, Some Faults.failure)
                     else select_single room (apply_cmds env0 s))
                    = (None, Some (if f0 then Faults.failure else mkStoreError "PGRST116"))).
    { destruct f0; [reflexivity|]. destruct H as [H|H]; [discriminate|].
      apply select_single_missing, H. }
    unfold arbitrate. cbn [Faults.run_faulty List.hd List.tl].
    rewrite Hresp. reflexivity.
Qed.

Lemma adopted_seed_is_the_stored_seed_witness :
  Faults.no_failure [([], false); ([CUpdateOwner "portal" "player_b"], false)] = true
  /\ exists w,
      (Faults.run_faulty (arbitrate "portal" "player_me" [] (1 # 2))
         [([], false); ([CUpdateOwner "portal" "player_b"], false)]
         Sample.unowned).1.2 !! "portal" = Some w
      /\ w_seed w
         = r_worldSeed
             (Faults.run_faulty (arbitrate "portal" "player_me" [] (1 # 2))
                [([], false); ([CUpdateOwner "portal" "player_b"], false)]
                Sample.unowned).1.1.
Proof.
  assert (H : Faults.no_failure
                [([], false); ([CUpdateOwner "portal" "player_b"], false)] = true)
    by reflexivity.
  split; [exact H|].
  exact (proj1 (adopted_seed_is_the_stored_seed "portal" "player_me" [] (1 # 2)
                  Sample.unowned) _ H).
Defined.

(** X19. When none of its requests fails, an arbitration that ends
    with [isHost] true leaves the room's row naming this peer as owner
    at the moment of its last request. *)
Theorem host_is_recorded_owner room pid others rnd sched (s : Store) :
  Faults.no_failure sched = true ->
  r_isHost (Faults.run_faulty (arbitrate room pid others rnd) sched s).1.1 = true ->
  exists w,
    (Faults.run_faulty (arbitrate room pid others rnd) sched s).1.2 !! room = Some w
    /\ w_owner_player_id w = Some pid.
Proof.
  intros Hok. rewrite (run_faulty_no_failure _ sched s Hok). intros Hh.
  destruct (arbitrate_outcome room pid others rnd sched.*1 s) as (w & H1 & _ & H3).
  eauto.
Qed.

Lemma host_is_recorded_owner_witness :
  Faults.no_failure [([], false); ([], false)] = true
  /\ r_isHost (Faults.run_faulty (arbitrate "portal" "player_me" [] (1 # 2))
                 [([], false); ([], false)] Sample.unowned).1.1 = true
  /\ exists w,
      (Faults.run_faulty (arbitrate "portal" "player_me" [] (1 # 2))
         [([], false); ([], false)] Sample.unowned).1.2 !! "portal"
      = Some w
      /\ w_owner_player_id w = Some "player_me".
Proof.
  assert (H0 : Faults.no_failure [([], false); ([], false)] = true) by reflexivity.
  assert (H : r_isHost (Faults.run_faulty (arbitrate "portal" "player_me" [] (1 # 2))
                          [([], false); ([], false)] Sample.unowned).1.1 = true)
    by (vm_compute; reflexivity).
  split; [exact H0|]. split; [exact H|].
  exact (host_is_recorded_owner "portal" "player_me" [] (1 # 2) _ Sample.unowned H0 H).
Defined.

(** X20. First come, first host: when a peer with a non-empty id
    creates the room undisturbed and another peer arrives afterwards,
    the first ends as host, the second does not, both hold the same
    seed, and the second leaves the table as it found it. *)
Theorem second_peer_joins_first room a b othersA othersB rndA rndB (s : Store) :
  s !! room = None ->
  a <> "" -> a <> b ->
  let ra := run (arbitrate room a othersA rndA) [] s in
  let rb := run (arbitrate room b othersB rndB) [] ra.1.2 in
  r_isHost ra.1.1 = true
  /\ r_isHost rb.1.1 = false
  /\ r_worldSeed rb.1.1 = r_worldSeed ra.1.1
  /\ rb.1.2 = ra.1.2.
Proof.
  intros Hnone Hne Hab ra rb.
  assert (Ha : ra = (mkResolved (generateWorldSeed rndA) true,
                     <[room := mkWorld (generateWorldSeed rndA) (Some a) "Untitled World"]> s,
                     [CSelect room;
                      CInsert room (mkWorld (generateWorldSeed rndA) (Some a) "Untitled World")])).
  { subst ra. unfold arbitrate. cbn [run List.hd List.tl apply_cmds foldl].
    rewrite (select_single_missing _ _ Hnone). cbn [run List.hd List.tl apply_cmds foldl].
    rewrite (insert_world_accepted _ _ _ Hnone). reflexivity. }
  assert (Hb : rb = (mkResolved (generateWorldSeed rndA) false, ra.1.2, [CSelect room])).
  { subst rb. rewrite Ha. cbn [fst snd].
    rewrite (arbitrate_found_no_claim room b othersB rndB [] _
               (mkWorld (generateWorldSeed rndA) (Some a) "Untitled World")).
    - cbn [w_seed w_owner_player_id List.hd apply_cmds foldl].
      rewrite bool_decide_eq_false_2 by congruence. reflexivity.
    - apply lookup_insert_eq.
    - cbn [w_owner_player_id owner_falsy].
      rewrite (bool_decide_eq_false_2 (a = "")) by exact Hne. apply andb_false_r. }
  rewrite Hb, Ha. cbn. auto.
Qed.

Lemma second_peer_joins_first_witness :
  (∅ : Store) !! "portal" = None
  /\ "player_a" <> "" /\ "player_a" <> "player_b"
  /\ r_isHost (run (arbitrate "portal" "player_a" [] (1 # 2)) [] (∅ : Store)).1.1 = true
  /\ r_isHost
       (run (arbitrate "portal" "player_b" [] (1 # 4)) []
          (run (arbitrate "portal" "player_a" [] (1 # 2)) [] (∅ : Store)).1.2).1.1
     = false
  /\ r_worldSeed
       (run (arbitrate "portal" "player_b" [] (1 # 4)) []
          (run (arbitrate "portal" "player_a" [] (1 # 2)) [] (∅ : Store)).1.2).1.1
     = r_worldSeed (run (arbitrate "portal" "player_a" [] (1 # 2)) [] (∅ : Store)).1.1.
Proof.
  assert (H1 : (∅ : Store) !! "portal" = None) by reflexivity.
  assert (H2 : "player_a" <> "") by discriminate.
  assert (H3 : "player_a" <> "player_b") by discriminate.
  do 3 (split; [assumption|]).
  pose proof (second_peer_joins_first "portal" "player_a" "player_b" [] []
                (1 # 2) (1 # 4) ∅ H1 H2 H3) as (Ha & Hb & Hs & _).
  split; [exact Ha|]. split; [exact Hb | exact Hs].
Defined.

End ArbitrationOutcomes.

(** ** Identity helpers and heartbeats *)

Section Identity.

Import Multiplayer Session.

Lemma index_in_bounds {A : Type} (arr : list A) i :
  0 <= i < Z.of_nat (length arr) ->
  exists x, JSNum.index arr i = Some x /\ x ∈ arr.
Proof.
  intros Hi. unfold JSNum.index. destruct (Z.ltb_spec i 0); [lia|].
  destruct (lookup_lt_is_Some_2 arr (Z.to_nat i) ltac:(lia)) as [x Hx].
  exists x. split; [exact Hx|]. apply list_elem_of_lookup. eauto.
Qed.

Lemma random_index16_range rnd :
  (0 <= rnd)%Q -> (rnd < 1)%Q -> 0 <= random_index16 rnd < 16.
Proof.
  intros H0 H1. unfold random_index16. split.
  - change 0 with (Qfloor 0). apply Qfloor_resp_le.
    apply Qmult_le_0_compat; [exact H0 | discriminate].
  - assert (Hlt : (rnd * 16 < 16)%Q).
    { destruct rnd as [n d]. unfold Qlt in *. cbn [Qnum Qden Qmult] in *.
      rewrite Pos.mul_1_r. lia. }
    pose proof (Qfloor_le (rnd * 16)) as Hfl.
    assert (Hq : (inject_Z (Qfloor (rnd * 16)) < inject_Z 16)%Q)
      by (eapply Qle_lt_trans; [exact Hfl | exact Hlt]).
    rewrite <- Zlt_Qlt in Hq. exact Hq.
Qed.

(** X22. With no name stored, [generatePlayerName] returns an adjective
    from [ADJECTIVES] followed by an animal from [ANIMALS], for any two
    values [Math.random()] can return; a stored non-empty name is
    returned as it is. *)
Theorem generatePlayerName_is_well_formed saved rnd1 rnd2 :
  (0 <= rnd1)%Q -> (rnd1 < 1)%Q -> (0 <= rnd2)%Q -> (rnd2 < 1)%Q ->
  match saved_value saved with
  | Some name => generatePlayerName saved rnd1 rnd2 = name
  | None =>
      exists adj animal,
        adj ∈ ADJECTIVES /\ animal ∈ ANIMALS
        /\ generatePlayerName saved rnd1 rnd2 = adj +:+ animal
  end.
Proof.
  intros Ha Hb Hc Hd. unfold generatePlayerName.
  destruct (saved_value saved) as [name|]; [reflexivity|].
  destruct (index_in_bounds ADJECTIVES (random_index16 rnd1)) as (adj & -> & Hadj);
    [apply random_index16_range; assumption|].
  destruct (index_in_bounds ANIMALS (random_index16 rnd2)) as (animal & -> & Hani);
    [apply random_index16_range; assumption|].
  exists adj, animal. auto.
Qed.

Lemma generatePlayerName_is_well_formed_witness :
  (0 <= 1 # 2)%Q /\ (1 # 2 < 1)%Q /\ (0 <= 15 # 16)%Q /\ (15 # 16 < 1)%Q
  /\ exists adj animal,
      adj ∈ ADJECTIVES /\ animal ∈ ANIMALS
      /\ generatePlayerName None (1 # 2) (15 # 16) = adj +:+ animal.
Proof.
  assert (H1 : (0 <= 1 # 2)%Q) by discriminate.
  assert (H2 : (1 # 2 < 1)%Q) by reflexivity.
  assert (H3 : (0 <= 15 # 16)%Q) by discriminate.
  assert (H4 : (15 # 16 < 1)%Q) by reflexivity.
  do 4 (split; [assumption|]).
  exact (generatePlayerName_is_well_formed None (1 # 2) (15 # 16) H1 H2 H3 H4).
Defined.

Lemma sync_lastActive_own m joinedAt t :
  t <> 0 -> sync_lastActive (Some (own_presence m joinedAt t)) = t.
Proof.
  intros Ht. unfold sync_lastActive, num_or. cbn.
  destruct (Z.eqb_spec t 0); [congruence | reflexivity].
Qed.

(** X23. Heartbeats keep a peer in the room: if the entry another
    manager sees for a peer is what that peer's heartbeat published at
    clock reading [t], a sync within 300,000 ms of [t] puts the peer in
    the spawned set. *)
Theorem heartbeat_keeps_peer_fresh sender joinedAt t observer state now pid p :
  heartbeat joinedAt t sender = [ChannelTrack p] ->
  t <> 0 ->
  first_presence state pid = Some p ->
  pid ∈ keys state ->
  playerId observer <> Some pid ->
  now - t <= STALE_THRESHOLD ->
  pid ∈ spawnedPlayers (on_presence_sync state now observer).1.
Proof.
  intros Hb Ht Hfirst Hin Hown Hfresh.
  unfold heartbeat in Hb. destruct (channel sender); [|discriminate].
  injection Hb as <-.
  apply sync_loop_spawns_fresh; [exact Hin | exact Hown |].
  rewrite Hfirst, sync_lastActive_own by exact Ht. exact Hfresh.
Qed.

Lemma heartbeat_keeps_peer_fresh_witness :
  heartbeat Sample.now (Sample.now + 20000) Sample.joined
  = [ChannelTrack (own_presence Sample.joined Sample.now (Sample.now + 20000))]
  /\ Sample.now + 20000 <> 0
  /\ first_presence
       [("player_me", [own_presence Sample.joined Sample.now (Sample.now + 20000)])]
       "player_me"
     = Some (own_presence Sample.joined Sample.now (Sample.now + 20000))
  /\ "player_me"
       ∈ keys [("player_me", [own_presence Sample.joined Sample.now (Sample.now + 20000)])]
  /\ playerId (set_identity (mkIdentity "player_obs" "CozyOwl" "#ffe66d" []) Sample.joined)
     <> Some "player_me"
  /\ (Sample.now + 30000) - (Sample.now + 20000) <= STALE_THRESHOLD
  /\ "player_me"
       ∈ spawnedPlayers
           (on_presence_sync
              [("player_me", [own_presence Sample.joined Sample.now (Sample.now + 20000)])]
              (Sample.now + 30000)
              (set_identity (mkIdentity "player_obs" "CozyOwl" "#ffe66d" [])
                 Sample.joined)).1.
Proof.
  assert (H1 : heartbeat Sample.now (Sample.now + 20000) Sample.joined
    = [ChannelTrack (own_presence Sample.joined Sample.now (Sample.now + 20000))])
    by reflexivity.
  assert (H2 : Sample.now + 20000 <> 0) by (vm_compute; discriminate).
  assert (H3 : first_presence
       [("player_me", [own_presence Sample.joined Sample.now (Sample.now + 20000)])]
       "player_me"
     = Some (own_presence Sample.joined Sample.now (Sample.now + 20000)))
    by (vm_compute; reflexivity).
  assert (H4 : "player_me"
       ∈ keys [("player_me", [own_presence Sample.joined Sample.now (Sample.now + 20000)])])
    by apply list_elem_of_here.
  assert (H5 : playerId (set_identity (mkIdentity "player_obs" "CozyOwl" "#ffe66d" [])
                           Sample.joined) <> Some "player_me") by discriminate.
  assert (H6 : (Sample.now + 30000) - (Sample.now + 20000) <= STALE_THRESHOLD)
    by (vm_compute; discriminate).
  do 6 (split; [assumption|]).
  exact (heartbeat_keeps_peer_fresh Sample.joined Sample.now (Sample.now + 20000)
           _ _ (Sample.now + 30000) "player_me" _ H1 H2 H3 H4 H5 H6).
Defined.

End Identity.

(** ** Remaining bounds and counts *)

Section BoundsAndCounts.

Import Multiplayer Session.

(** X24. For every double of [0, 1) that [Math.random()] can return,
    the world seed [generateWorldSeed] draws is an integer from 0 to
    999,999, the rounding of the product included; 0 gives seed 0 and
    the largest double below 1 gives seed 999,999. *)
Theorem generateWorldSeed_range rnd :
  unit_double rnd = true ->
  0 <= generateWorldSeed rnd < 1000000
  /\ generateWorldSeed (0 # 1) = 0
  /\ generateWorldSeed (9007199254740991 # 9007199254740992) = 999999.
Proof.
  intros Hd. split; [|split; vm_compute; reflexivity].
  destruct (unit_double_spec rnd Hd) as [Hm Hlt].
  unfold generateWorldSeed, Qfloor.
  pose proof (double_scale_bound (Qnum rnd) (Zpos (Qden rnd)) 1000000 Hm Hlt ltac:(lia))
    as [H0 H1].
  split.
  - apply Z.div_pos; lia.
  - apply Z.div_lt_upper_bound; lia.
Qed.

(** An instance at the double nearest to 0.999999. *)
Lemma generateWorldSeed_range_witness :
  unit_double (9007190247541737 # 9007199254740992) = true
  /\ 0 <= generateWorldSeed (9007190247541737 # 9007199254740992) < 1000000.
Proof.
  assert (H : unit_double (9007190247541737 # 9007199254740992) = true)
    by (vm_compute; reflexivity).
  split; [exact H|].
  exact (proj1 (generateWorldSeed_range (9007190247541737 # 9007199254740992) H)).
Defined.

Lemma for_each_keeps_onPlayerJoin step l : forall m,
  spawn_step step ->
  onPlayerJoin (for_each step l m).1 = onPlayerJoin m.
Proof.
  induction l as [|pid l IH]; intros m Hstep; [reflexivity|].
  cbn [for_each].
  destruct (Hstep pid m) as [(evs & -> & _) | (_ & _ & pd & ->)].
  - specialize (IH m Hstep). destruct (for_each step l m). exact IH.
  - specialize (IH (set_spawnedPlayers ({[pid]} ∪ spawnedPlayers m) m) Hstep).
    destruct (for_each step l _). exact IH.
Qed.

Lemma sync_one_new now state pid m :
  playerId m <> Some pid ->
  pid ∉ spawnedPlayers m ->
  now - sync_lastActive (first_presence state pid) <= STALE_THRESHOLD ->
  sync_one now state pid m
  = (set_spawnedPlayers ({[pid]} ∪ spawnedPlayers m) m,
     if onPlayerJoin m then [CallOnPlayerJoin pid (first_presence state pid)] else []).
Proof.
  intros Hown Hsp Hfresh. unfold sync_one.
  rewrite bool_decide_eq_false_2 by exact Hown.
  destruct (Z.ltb_spec STALE_THRESHOLD (now - sync_lastActive (first_presence state pid)));
    [lia|].
  rewrite bool_decide_eq_false_2 by exact Hsp. reflexivity.
Qed.

(** X26. A sync invokes the join callback exactly once, with the
    reported entry, for a fresh roster peer that is not spawned yet
    (for instance one that left and is still listed), and makes no
    other call for that peer. *)
Theorem new_peer_is_joined_once state now m pid :
  NoDup (keys state) ->
  pid ∈ keys state ->
  playerId m <> Some pid ->
  pid ∉ spawnedPlayers m ->
  now - sync_lastActive (first_presence state pid) <= STALE_THRESHOLD ->
  calls_for pid (on_presence_sync state now m).2
  = (if onPlayerJoin m
     then [CallOnPlayerJoin pid (first_presence state pid)] else []).
Proof.
  intros Hnd Hin Hown Hsp Hfresh. unfold on_presence_sync.
  apply list_elem_of_split in Hin as (l1 & l2 & Hk). rewrite Hk in *.
  apply NoDup_app in Hnd as (_ & Hl1 & Hnd).
  apply NoDup_cons in Hnd as (Hl2 & _).
  assert (Hq1 : pid ∉ l1) by (intros H; apply (Hl1 pid H); left).
  rewrite sync_loop_app, sync_loop_cons. cbn [fst snd].
  destruct (sync_loop_frame now state l1 m pid Hq1) as (Hp1 & _ & Hs1 & Hc1).
  pose proof (for_each_keeps_onPlayerJoin (sync_one now state) l1 m
                (sync_one_spawn_step now state)) as Hj1.
  rewrite <- sync_loop_for_each in Hj1.
  set (m1 := fst (sync_loop now state l1 m)) in *.
  rewrite (sync_one_new now state pid m1);
    [| unfold fst in Hp1; rewrite Hp1; exact Hown | rewrite Hs1; exact Hsp | exact Hfresh].
  cbn [fst snd].
  destruct (sync_loop_frame now state l2
              (set_spawnedPlayers ({[pid]} ∪ spawnedPlayers m1) m1) pid Hl2)
    as (_ & _ & _ & Hc2).
  rewrite !calls_for_app, Hc1, Hc2, app_nil_r. cbn [app].
  unfold fst in Hj1. rewrite Hj1.
  destruct (onPlayerJoin m); [|reflexivity].
  unfold calls_for. rewrite filter_cons_True by reflexivity. reflexivity.
Qed.

Lemma new_peer_is_joined_once_witness :
  NoDup (keys [("p1", [Sample.stale_peer]); ("p2", [Sample.fresh_peer])])
  /\ "p2" ∈ keys [("p1", [Sample.stale_peer]); ("p2", [Sample.fresh_peer])]
  /\ playerId (on_presence_leave "p2" (set_spawnedPlayers {["p2"]} Sample.joined)).1
     <> Some "p2"
  /\ ("p2" ∉ spawnedPlayers
               (on_presence_leave "p2" (set_spawnedPlayers {["p2"]} Sample.joined)).1)
  /\ Sample.now
     - sync_lastActive
         (first_presence [("p1", [Sample.stale_peer]); ("p2", [Sample.fresh_peer])] "p2")
     <= STALE_THRESHOLD
  /\ calls_for "p2"
       (on_presence_sync [("p1", [Sample.stale_peer]); ("p2", [Sample.fresh_peer])]
          Sample.now
          (on_presence_leave "p2" (set_spawnedPlayers {["p2"]} Sample.joined)).1).2
     = [CallOnPlayerJoin "p2" (Some Sample.fresh_peer)].
Proof.
  assert (H1 : NoDup (keys [("p1", [Sample.stale_peer]); ("p2", [Sample.fresh_peer])]))
    by (apply (bool_decide_unpack _); vm_compute; exact I).
  assert (H2 : "p2" ∈ keys [("p1", [Sample.stale_peer]); ("p2", [Sample.fresh_peer])])
    by (apply (bool_decide_unpack _); vm_compute; exact I).
  assert (H3 : playerId (on_presence_leave "p2"
                           (set_spawnedPlayers {["p2"]} Sample.joined)).1 <> Some "p2")
    by discriminate.
  assert (H4 : "p2" ∉ spawnedPlayers
                 (on_presence_leave "p2" (set_spawnedPlayers {["p2"]} Sample.joined)).1)
    by (apply (bool_decide_unpack _); vm_compute; exact I).
  assert (H5 : Sample.now
     - sync_lastActive
         (first_presence [("p1", [Sample.stale_peer]); ("p2", [Sample.fresh_peer])] "p2")
     <= STALE_THRESHOLD) by (vm_compute; discriminate).
  do 5 (split; [assumption|]).
  exact (new_peer_is_joined_once _ Sample.now _ "p2" H1 H2 H3 H4 H5).
Defined.

End BoundsAndCounts.

(** ** Chunk size *)

Section ChunkSize.

Import Biomes.

Lemma exec_keeps_chunk_positive o st :
  (forall n, customBiomeChunkSize st.2 = Some n -> (0 < n)%Q) ->
  forall n, customBiomeChunkSize (Biomes.exec o st).2 = Some n -> (0 < n)%Q.
Proof.
  destruct st as [rng b]. intros Hinv n. destruct o as [cx cz | cfg | | seed |]; cbn [Biomes.exec snd].
  - unfold getBiomeForCell.
    destruct (biomeCache b !! _); [apply Hinv|].
    destruct (Rng.createPositionRandom _ _ _ rng) as [rng1 g].
    destruct (Rng.call g rng1) as [rng2 [| | |]]; apply Hinv.
  - destruct cfg as [cfg|]; [|apply Hinv]. cbn [setBiomeConfig customBiomeChunkSize].
    destruct (biomeChunkSize cfg) as [k| |]; [|discriminate|apply Hinv].
    destruct (Qlt_le_dec 0 k); [|apply Hinv]. intros E. injection E as <-. assumption.
  - apply Hinv.
  - apply Hinv.
  - apply Hinv.
Qed.

Lemma run_keeps_chunk_positive ops : forall st,
  (forall n, customBiomeChunkSize st.2 = Some n -> (0 < n)%Q) ->
  forall n, customBiomeChunkSize (Biomes.run ops st).2 = Some n -> (0 < n)%Q.
Proof.
  induction ops as [|o ops IH]; intros st Hinv; [exact Hinv|].
  apply IH, exec_keeps_chunk_positive, Hinv.
Qed.

(** X25. Whatever configurations are passed to [setBiomeConfig]
    (zero, negative, null or missing chunk sizes included), the chunk
    size [getBiomeChunkSize] reports is positive, so the cell of a
    position is always defined. *)
Theorem getBiomeChunkSize_positive ops rng :
  (0 < getBiomeChunkSize (Biomes.run ops (rng, Biomes.initial)).2)%Q.
Proof.
  pose proof (run_keeps_chunk_positive ops (rng, Biomes.initial)) as H.
  unfold getBiomeChunkSize.
  destruct (customBiomeChunkSize (Biomes.run ops (rng, Biomes.initial)).2) as [n|] eqn:E;
    [|reflexivity].
  destruct (Qeq_bool n 0); [reflexivity|].
  apply H; [discriminate | reflexivity].
Qed.

End ChunkSize.
